(** * TinyPipe: a single-producer / single-consumer ring of length-prefixed frames

    Shallow embedding of [src/tinypipe.c] and [src/tinypipe.h].

    - The arena ([q->buffer], a [malloc]ed block of [char]) is a [list byte].
    - The three pointers [buffer], [writeHead], [readHead] are byte offsets
      relative to the start of the arena, kept in [Z]:  [buffer] is offset 0,
      pointer comparison is comparison of offsets, pointer arithmetic is
      addition of offsets.
    - [int] and [int32_t] are 32-bit two's complement integers kept in [Z];
      conversions from [size_t] back to [int] wrap modulo [2^32].
    - An access through [TPIPE_GET_INT32_AT_BUFFER] / [TPIPE_SET_INT32_AT_BUFFER],
      [memcpy] or [memset] that leaves the arena, and a signed overflow, have
      no defined behaviour in C: the embedding answers [Undefined].  A failed
      [assert] answers [AssertionFailure].
    - The store fence [hv_sfence()] orders stores for a second thread; in the
      sequential embedding it is the order of the two stores around it.
    - [tpipe_free] releases the arena and ends the life of the pipe; no
      property below speaks of it.  *)

From Stdlib Require Import ZArith Lia.
From Stdlib.Strings Require Import Byte.
From stdpp Require Import base tactics option list.

Local Open Scope Z_scope.

(** ** Bytes and 32-bit integers *)

Module Int32.

Definition modulus : Z := 2 ^ 32.
Definition max_signed : Z := 2 ^ 31 - 1.
Definition min_signed : Z := - 2 ^ 31.

(** Conversion of an out-of-range value to [int]: reduction modulo [2^32]
    into the signed range. *)
Definition wrap (z : Z) : Z := (z + 2 ^ 31) mod modulus - 2 ^ 31.

Definition in_range (z : Z) : Prop := min_signed <= z <= max_signed.

Definition in_rangeb (z : Z) : bool := (min_signed <=? z) && (z <=? max_signed).

Definition byte_to_Z (b : byte) : Z := Z.of_N (Byte.to_N b).

Definition byte_of_Z (z : Z) : byte :=
  match Byte.of_N (Z.to_N (z mod 256)) with
  | Some b => b
  | None => x00
  end.

(** The object representation of an [int32_t] is in native byte order. *)
Inductive byte_order : Set := LittleEndian | BigEndian.

Definition encode_le (x : Z) : list byte :=
  [ byte_of_Z (x mod 256)
  ; byte_of_Z ((x / 256) mod 256)
  ; byte_of_Z ((x / 65536) mod 256)
  ; byte_of_Z ((x / 16777216) mod 256) ].

Definition decode_le (bs : list byte) : option Z :=
  match bs with
  | [b0; b1; b2; b3] =>
      Some (wrap (byte_to_Z b0 + 256 * byte_to_Z b1
                  + 65536 * byte_to_Z b2 + 16777216 * byte_to_Z b3))
  | _ => None
  end.

Definition encode (bo : byte_order) (x : Z) : list byte :=
  match bo with
  | LittleEndian => encode_le x
  | BigEndian => reverse (encode_le x)
  end.

Definition decode (bo : byte_order) (bs : list byte) : option Z :=
  match bo with
  | LittleEndian => decode_le bs
  | BigEndian => decode_le (reverse bs)
  end.

End Int32.

(** ** The arena *)

Module Arena.

(** The [n] bytes from offset [off] on lie in the arena. *)
Definition in_bounds (a : list byte) (off n : Z) : bool :=
  (0 <=? off) && (0 <=? n) && (off + n <=? Z.of_nat (length a)).

Definition load_bytes (a : list byte) (off n : Z) : option (list byte) :=
  if in_bounds a off n
  then Some (take (Z.to_nat n) (drop (Z.to_nat off) a))
  else None.

Definition store_bytes (a : list byte) (off : Z) (bs : list byte)
  : option (list byte) :=
  if in_bounds a off (Z.of_nat (length bs))
  then Some (list_inserts (Z.to_nat off) bs a)
  else None.

(** [TPIPE_GET_INT32_AT_BUFFER(a)] *)
Definition get_int32 (bo : Int32.byte_order) (a : list byte) (off : Z) : option Z :=
  bs ← load_bytes a off 4; Int32.decode bo bs.

(** [TPIPE_SET_INT32_AT_BUFFER(a, b)] *)
Definition set_int32 (bo : Int32.byte_order) (a : list byte) (off : Z) (x : Z)
  : option (list byte) :=
  store_bytes a off (Int32.encode bo x).

End Arena.

(** ** Outcomes of a call *)

Inductive outcome (A : Type) : Type :=
| Ok (a : A)
| AssertionFailure
| Undefined.

Arguments Ok {A} a.
Arguments AssertionFailure {A}.
Arguments Undefined {A}.

#[global] Instance outcome_ret : MRet outcome := fun A a => Ok a.

#[global] Instance outcome_bind : MBind outcome := fun A B f m =>
  match m with
  | Ok a => f a
  | AssertionFailure => AssertionFailure
  | Undefined => Undefined
  end.

(** A memory access: outside the arena it is undefined. *)
Definition access {A} (o : option A) : outcome A :=
  match o with
  | Some a => Ok a
  | None => Undefined
  end.

(** Signed [int] addition: overflow is undefined. *)
Definition add_int (x y : Z) : outcome Z :=
  if Int32.in_rangeb (x + y) then Ok (x + y) else Undefined.

(** ** The pipe *)

(** [struct TinyPipe] of [tinypipe.h]. *)
Record TinyPipe : Type := mkTinyPipe {
  buffer : list byte;
  writeHead : Z;
  readHead : Z;
  len : Z;
  remainingBytes : Z
}.

Definition HLP_STOP : Z := 0.
Definition HLP_LOOP : Z := -1.

(** [sizeof(int32_t)] *)
Definition sizeof_int32 : Z := 4.

Section Pipe.

Variable bo : Int32.byte_order.

Local Abbreviation get_int32 := (Arena.get_int32 bo).
Local Abbreviation set_int32 := (Arena.set_int32 bo).

(** [malloc(numBytes)].  What the allocator answers is given by [heap]:
    with [None] it has no block to give and [malloc] returns [NULL], here
    [None]; with [Some fresh] it returns a block of [numBytes] bytes of
    indeterminate contents, here the bytes of [fresh]. *)
Definition malloc (heap : option (list byte)) (numBytes : Z) : option (list byte) :=
  match heap with
  | None => None
  | Some fresh => Some (resize (Z.to_nat numBytes) x00 fresh)
  end.

Definition tpipe_init (heap : option (list byte)) (numBytes : Z)
  : outcome (TinyPipe * Z) :=
  if 0 <? numBytes then
    match malloc heap numBytes with
    | None => AssertionFailure
    | Some block =>
        buf ← access (set_int32 block 0 HLP_STOP);
        Ok (mkTinyPipe buf 0 0 numBytes numBytes, numBytes)
    end
  else AssertionFailure.

Definition tpipe_hasData (q : TinyPipe) : outcome (TinyPipe * Z) :=
  x ← access (get_int32 (buffer q) (readHead q));
  if x =? HLP_LOOP then
    let q' := mkTinyPipe (buffer q) (writeHead q) 0 (len q) (remainingBytes q) in
    x' ← access (get_int32 (buffer q') (readHead q'));
    Ok (q', x')
  else Ok (q, x).

(** The result is the returned pointer, [None] for [NULL]. *)
Definition tpipe_getWriteBuffer (q : TinyPipe) (bytesToWrite : Z)
  : outcome (TinyPipe * option Z) :=
  let readHead_ := readHead q in
  let oldWriteHead := writeHead q in
  let totalByteRequirement := Int32.wrap (bytesToWrite + 2 * sizeof_int32) in
  if totalByteRequirement <=? remainingBytes q then
    let newWriteHead := oldWriteHead + sizeof_int32 + bytesToWrite in
    if (oldWriteHead <? readHead_) && (newWriteHead >=? readHead_)
    then Ok (q, None)
    else Ok (q, Some (oldWriteHead + sizeof_int32))
  else
    if totalByteRequirement <=? len q then
      if (oldWriteHead <? readHead_) || (0 + totalByteRequirement >? readHead_)
      then Ok (q, None)
      else
        buf1 ← access (set_int32 (buffer q) 0 HLP_STOP);
        buf2 ← access (set_int32 buf1 oldWriteHead HLP_LOOP);
        Ok (mkTinyPipe buf2 0 (readHead q) (len q) (len q), Some (0 + sizeof_int32))
    else Ok (q, None).

Definition tpipe_produce (q : TinyPipe) (numBytes : Z) : outcome TinyPipe :=
  need ← add_int numBytes (2 * sizeof_int32);
  if remainingBytes q >=? need then
    let remainingBytes' := Int32.wrap (remainingBytes q - (sizeof_int32 + numBytes)) in
    let oldWriteHead := writeHead q in
    let writeHead' := writeHead q + (sizeof_int32 + numBytes) in
    buf1 ← access (set_int32 (buffer q) writeHead' HLP_STOP);
    buf2 ← access (set_int32 buf1 oldWriteHead numBytes);
    Ok (mkTinyPipe buf2 writeHead' (readHead q) (len q) remainingBytes')
  else AssertionFailure.

(** The result is the returned pointer and the value stored in [*numBytes]. *)
Definition tpipe_getReadBuffer (q : TinyPipe) : outcome (Z * Z) :=
  numBytes ← access (get_int32 (buffer q) (readHead q));
  let readBuffer := readHead q + sizeof_int32 in
  Ok (readBuffer, numBytes).

Definition tpipe_consume (q : TinyPipe) : outcome TinyPipe :=
  x ← access (get_int32 (buffer q) (readHead q));
  if x =? HLP_STOP then AssertionFailure
  else
    d ← access (get_int32 (buffer q) (readHead q));
    Ok (mkTinyPipe (buffer q) (writeHead q) (readHead q + (sizeof_int32 + d))
                   (len q) (remainingBytes q)).

Definition tpipe_clear (q : TinyPipe) : outcome TinyPipe :=
  if len q <? 0 then Undefined
  else
    buf ← access (Arena.store_bytes (buffer q) 0 (replicate (Z.to_nat (len q)) x00));
    Ok (mkTinyPipe buf 0 0 (len q) (len q)).

(** The [while] loop of [tpipe_getTotalData]; [None] when [fuel] iterations
    did not reach a [HLP_STOP]. *)
Fixpoint getTotalData_loop (fuel : nat) (q : TinyPipe) (p : Z) (len_ : Z)
  : option (outcome Z) :=
  match fuel with
  | O => None
  | S fuel' =>
      match get_int32 (buffer q) p with
      | None => Some Undefined
      | Some d =>
          if d =? HLP_STOP then Some (Ok len_)
          else if d =? HLP_LOOP then getTotalData_loop fuel' q 0 len_
          else
            match add_int len_ d with
            | Ok len' => getTotalData_loop fuel' q (p + (sizeof_int32 + d)) len'
            | _ => Some Undefined
            end
      end
  end.

Definition tpipe_getTotalData (fuel : nat) (q : TinyPipe) : option (outcome Z) :=
  getTotalData_loop fuel q (readHead q) 0.

(** [memcpy(dst, data, numBytes)] into the arena. *)
Definition memcpy (a : list byte) (dst : Z) (data : list byte) (numBytes : Z)
  : outcome (list byte) :=
  if numBytes <? 0 then Undefined
  else
    src ← access (Arena.load_bytes data 0 numBytes);
    access (Arena.store_bytes a dst src).

Definition tpipe_write (q : TinyPipe) (data : list byte) (numBytes : Z)
  : outcome (TinyPipe * Z) :=
  '(q1, buffer_) ← tpipe_getWriteBuffer q numBytes;
  match buffer_ with
  | None => Ok (q1, 0)
  | Some dst =>
      buf ← memcpy (buffer q1) dst data numBytes;
      q2 ← tpipe_produce
             (mkTinyPipe buf (writeHead q1) (readHead q1) (len q1) (remainingBytes q1))
             numBytes;
      Ok (q2, 1)
  end.

End Pipe.

(** ** Well-formed and reachable pipes *)

Section Protocol.

Variable bo : Int32.byte_order.

(** Bookkeeping that every call keeps: the arena has [len] bytes, the
    remaining-bytes counter is the distance from the write head to the end of
    the arena and leaves room for one more marker, and the slot at the start
    of the arena never holds a negative value. *)
Record wf (q : TinyPipe) : Prop := mk_wf {
  wf_len : Z.of_nat (length (buffer q)) = len q;
  wf_cap : 4 <= len q <= Int32.max_signed;
  wf_rem : remainingBytes q = len q - writeHead q;
  wf_room : 4 <= remainingBytes q;
  wf_write : writeHead q = 0 \/ 4 <= writeHead q;
  wf_start : exists x, Arena.get_int32 bo (buffer q) 0 = Some x /\ 0 <= x
}.

(** The bytes a producer may have put into the arena between
    [tpipe_getWriteBuffer] and [tpipe_produce]. *)
Definition with_buffer (q : TinyPipe) (a : list byte) : TinyPipe :=
  mkTinyPipe a (writeHead q) (readHead q) (len q) (remainingBytes q).

(** States a client can bring the pipe to through the interface of
    [tinypipe.h], with byte counts that are not negative and a
    [tpipe_produce] that follows a successful [tpipe_getWriteBuffer] and
    commits no more than was asked for. *)
Inductive reachable : TinyPipe -> Prop :=
| reach_init fresh numBytes q r :
    numBytes <= Int32.max_signed ->
    tpipe_init bo fresh numBytes = Ok (q, r) ->
    reachable q
| reach_hasData q q' x :
    reachable q ->
    tpipe_hasData bo q = Ok (q', x) ->
    reachable q'
| reach_getWriteBuffer q bytesToWrite q' p :
    reachable q ->
    0 <= bytesToWrite <= Int32.max_signed ->
    tpipe_getWriteBuffer bo q bytesToWrite = Ok (q', p) ->
    reachable q'
| reach_produce q bytesToWrite q1 dst data numBytes a q' :
    reachable q ->
    bytesToWrite <= Int32.max_signed ->
    tpipe_getWriteBuffer bo q bytesToWrite = Ok (q1, Some dst) ->
    0 <= numBytes <= bytesToWrite ->
    memcpy (buffer q1) dst data numBytes = Ok a ->
    tpipe_produce bo (with_buffer q1 a) numBytes = Ok q' ->
    reachable q'
| reach_write q data numBytes q' r :
    reachable q ->
    0 <= numBytes <= Int32.max_signed ->
    tpipe_write bo q data numBytes = Ok (q', r) ->
    reachable q'
| reach_consume q q' :
    reachable q ->
    tpipe_consume bo q = Ok q' ->
    reachable q'
| reach_clear q q' :
    reachable q ->
    tpipe_clear q = Ok q' ->
    reachable q'.

(** ** The consumer's cycle *)

(** One [tpipe_hasData] / [tpipe_getReadBuffer] / [tpipe_consume] cycle:
    the payload of the frame read, [None] when [tpipe_hasData] reports no
    data. *)
Definition read_frame (q : TinyPipe) : outcome (TinyPipe * option (list byte)) :=
  '(q1, n) ← tpipe_hasData bo q;
  if 0 <? n then
    '(readBuffer, numBytes) ← tpipe_getReadBuffer bo q1;
    payload ← access (Arena.load_bytes (buffer q1) readBuffer numBytes);
    q2 ← tpipe_consume bo q1;
    Ok (q2, Some payload)
  else Ok (q1, None).

(** Read cycles until [tpipe_hasData] reports no data, at most [fuel] of them. *)
Fixpoint drain (fuel : nat) (q : TinyPipe) : outcome (TinyPipe * list (list byte)) :=
  match fuel with
  | O => Ok (q, [])
  | S fuel' =>
      '(q1, f) ← read_frame q;
      match f with
      | None => Ok (q1, [])
      | Some payload =>
          '(q2, rest) ← drain fuel' q1;
          Ok (q2, payload :: rest)
      end
  end.

End Protocol.

(** ** The frames a pipe holds *)

Section Representation.

Variable bo : Int32.byte_order.

(** The frame with payload [f] lies at offset [pos]: a header holding its
    length, which is positive, and then its bytes. *)
Definition frame_at (a : list byte) (pos : Z) (f : list byte) : Prop :=
  (0 < length f)%nat
  /\ Arena.get_int32 bo a pos = Some (Z.of_nat (length f))
  /\ Arena.load_bytes a (pos + 4) (Z.of_nat (length f)) = Some f.

(** The frames [fs] lie one after the other from [pos] up to [stop]. *)
Fixpoint chain (a : list byte) (pos : Z) (fs : list (list byte)) (stop : Z) : Prop :=
  match fs with
  | [] => pos = stop
  | f :: fs' => frame_at a pos f /\ chain a (pos + 4 + Z.of_nat (length f)) fs' stop
  end.

(** The unread frames of a pipe, oldest first: either they lie between the
    read cursor and the write cursor, or the older ones lie between the read
    cursor and a [HLP_LOOP] marker and the newer ones between the arena start
    and the write cursor, whose marker slot ends at or before the read
    cursor. *)
Inductive layout (q : TinyPipe) (fs : list (list byte)) : Prop :=
| layout_linear :
    readHead q <= writeHead q ->
    chain (buffer q) (readHead q) fs (writeHead q) ->
    layout q fs
| layout_wrapped fs1 fs2 e :
    fs = fs1 ++ fs2 ->
    writeHead q + 4 <= readHead q ->
    chain (buffer q) (readHead q) fs1 e ->
    Arena.get_int32 bo (buffer q) e = Some HLP_LOOP ->
    chain (buffer q) 0 fs2 (writeHead q) ->
    layout q fs.

(** The arena [a'] has the bytes of [a] everywhere outside [lo, hi). *)
Definition unchanged_outside (a a' : list byte) (lo hi : Z) : Prop :=
  length a' = length a
  /\ forall off n, off + n <= lo \/ hi <= off ->
                   Arena.load_bytes a' off n = Arena.load_bytes a off n.

(** Frame lengths and cursors that are multiples of 4. *)
Definition aligned (z : Z) : Prop := z mod 4 = 0.

(** The pipe [q] holds exactly the unread frames [fs]. *)
Record repr (q : TinyPipe) (fs : list (list byte)) : Prop := mk_repr {
  repr_wf : wf bo q;
  repr_read : 0 <= readHead q;
  repr_aligned : aligned (writeHead q) /\ aligned (readHead q);
  repr_frames : Forall (fun f => aligned (Z.of_nat (length f))) fs;
  repr_stop : Arena.get_int32 bo (buffer q) (writeHead q) = Some HLP_STOP;
  repr_layout : layout q fs
}.

(** The state between a [tpipe_getWriteBuffer] for [n] bytes that returned
    a pointer and the [tpipe_produce]: the [n + 8] bytes from the write cursor
    on are in the arena and hold no unread frame and no marker the consumer
    has yet to see. *)
Definition reserved (q : TinyPipe) (fs : list (list byte)) (n : Z) : Prop :=
  wf bo q
  /\ 0 <= readHead q
  /\ aligned (writeHead q) /\ aligned (readHead q)
  /\ Forall (fun f => aligned (Z.of_nat (length f))) fs
  /\ n + 8 <= remainingBytes q
  /\ ((readHead q <= writeHead q
       /\ chain (buffer q) (readHead q) fs (writeHead q))
      \/ (exists fs1 fs2 e,
             fs = fs1 ++ fs2
             /\ writeHead q + n + 8 <= readHead q
             /\ chain (buffer q) (readHead q) fs1 e
             /\ Arena.get_int32 bo (buffer q) e = Some HLP_LOOP
             /\ chain (buffer q) 0 fs2 (writeHead q))).

(** The payload bytes of the frames [fs] together. *)
Definition total_length (fs : list (list byte)) : Z :=
  foldr (fun f acc => Z.of_nat (length f) + acc) 0 fs.

(** A client's calls: [tpipe_write] of all the bytes of [data], or one read
    cycle. *)
Inductive op : Type :=
| Write (data : list byte)
| Read.

(** A [Write] the pipe is meant for: a positive number of bytes, a multiple
    of 4, whose requirement is an [int]. *)
Definition aligned_op (o : op) : Prop :=
  match o with
  | Write data =>
      (0 < length data)%nat
      /\ aligned (Z.of_nat (length data))
      /\ Z.of_nat (length data) <= Int32.max_signed - 8
  | Read => True
  end.

(** Runs the calls [ops] in order; the result is the pipe, the payloads of
    the writes that returned 1 and the payloads that the read cycles gave, both
    oldest first. *)
Fixpoint run (ops : list op) (q : TinyPipe) (written got : list (list byte))
  : outcome (TinyPipe * list (list byte) * list (list byte)) :=
  match ops with
  | [] => Ok (q, written, got)
  | Write data :: ops' =>
      '(q', r) ← tpipe_write bo q data (Z.of_nat (length data));
      run ops' q' (if r =? 1 then written ++ [data] else written) got
  | Read :: ops' =>
      '(q', f) ← read_frame bo q;
      run ops' q' written (match f with Some p => got ++ [p] | None => got end)
  end.

End Representation.

(** The pipe a call left behind, for chaining calls in examples; the empty
    pipe when the call did not return. *)
Definition nopipe : TinyPipe := mkTinyPipe [] 0 0 0 0.

Definition pipe_of {A} (o : outcome (TinyPipe * A)) : TinyPipe :=
  match o with
  | Ok (q, _) => q
  | _ => nopipe
  end.

Definition pipe_of' (o : outcome TinyPipe) : TinyPipe :=
  match o with
  | Ok q => q
  | _ => nopipe
  end.

(** ** Runs used as examples *)

Module Scenario.

Definition payload (n : nat) (b : byte) : list byte := replicate n b.

Section Runs.

Variable bo : Int32.byte_order.

(** Scenarios B and C of the specification: a pipe of 32 bytes, one frame of
    20 bytes written and consumed. *)
Definition small_init : TinyPipe := pipe_of (tpipe_init bo (Some []) 32).
Definition small_first : TinyPipe :=
  pipe_of (tpipe_write bo small_init (payload 20 x01) 20).
Definition small_consumed : TinyPipe := pipe_of' (tpipe_consume bo small_first).

(** Scenario C with a retry of 16 bytes, which wraps. *)
Definition small_wrapped : TinyPipe :=
  pipe_of (tpipe_write bo small_consumed (payload 16 x03) 16).

(** A pipe of 64 bytes with nothing written. *)
Definition fresh64 : TinyPipe := pipe_of (tpipe_init bo (Some []) 64).

(** A pipe of 336 bytes.  Frames A (20 bytes) and B (300 bytes) fill it up to
    offset 328; A is read; frame C (5 bytes) wraps to the arena start; frame
    D is written in front of the unread frame B, which starts at offset 24. *)
Definition frameA : list byte := payload 20 x0a.
Definition frameB : list byte := payload 300 x0b.
Definition frameC : list byte := payload 5 x0c.
Definition frameD : list byte := payload 10 x0d.

Definition ring_init : TinyPipe := pipe_of (tpipe_init bo (Some []) 336).
Definition ring_A : TinyPipe := pipe_of (tpipe_write bo ring_init frameA 20).
Definition ring_AB : TinyPipe := pipe_of (tpipe_write bo ring_A frameB 300).
Definition ring_B : TinyPipe := pipe_of (read_frame bo ring_AB).
Definition ring_BC : TinyPipe := pipe_of (tpipe_write bo ring_B frameC 5).
Definition ring_BCD : TinyPipe := pipe_of (tpipe_write bo ring_BC frameD 10).

(** Every call of the run returns, and every [tpipe_write] of it returns 1. *)
Definition ring_run : Prop :=
  tpipe_init bo (Some []) 336 = Ok (ring_init, 336)
  /\ tpipe_write bo ring_init frameA 20 = Ok (ring_A, 1)
  /\ tpipe_write bo ring_A frameB 300 = Ok (ring_AB, 1)
  /\ read_frame bo ring_AB = Ok (ring_B, Some frameA)
  /\ tpipe_write bo ring_B frameC 5 = Ok (ring_BC, 1)
  /\ tpipe_write bo ring_BC frameD 10 = Ok (ring_BCD, 1).

(** The same run with a frame B' whose payload holds the bytes of the
    integer -2 at the offsets 44 (most significant byte first) and 256
    (least significant byte first), and a last frame of [d] bytes. *)
Definition frameB' : list byte :=
  payload 44 x0b ++ [xff; xff; xff; xfe] ++ payload 208 x0b
  ++ [xfe; xff; xff; xff] ++ payload 40 x0b.

Definition ring'_AB : TinyPipe := pipe_of (tpipe_write bo ring_A frameB' 300).
Definition ring'_B : TinyPipe := pipe_of (read_frame bo ring'_AB).
Definition ring'_BC : TinyPipe := pipe_of (tpipe_write bo ring'_B frameC 5).
Definition ring'_BCD (d : nat) : TinyPipe :=
  pipe_of (tpipe_write bo ring'_BC (payload d x0d) (Z.of_nat d)).
Definition ring'_cut (d : nat) : TinyPipe := pipe_of (read_frame bo (ring'_BCD d)).

End Runs.

End Scenario.

(* ===================================================================== *)
(** * Properties *)
(* ===================================================================== *)

(** ** Object representation of [int32_t] *)

Lemma byte_to_Z_range (b : byte) : 0 <= Int32.byte_to_Z b < 256.
Proof.
  unfold Int32.byte_to_Z. pose proof (Byte.to_N_bounded b). lia.
Qed.

Lemma byte_to_of_Z (z : Z) : 0 <= z < 256 -> Int32.byte_to_Z (Int32.byte_of_Z z) = z.
Proof.
  intros Hz. unfold Int32.byte_to_Z, Int32.byte_of_Z.
  rewrite Z.mod_small by lia.
  destruct (Byte.of_N (Z.to_N z)) as [b|] eqn:E.
  - apply Byte.to_of_N in E. rewrite E. lia.
  - apply Byte.of_N_None_iff in E. lia.
Qed.

Lemma wrap_in_range (z : Z) : Int32.in_range (Int32.wrap z).
Proof.
  unfold Int32.in_range, Int32.wrap, Int32.min_signed, Int32.max_signed, Int32.modulus.
  pose proof (Z.mod_pos_bound (z + 2 ^ 31) (2 ^ 32)). lia.
Qed.

Lemma wrap_id (z : Z) : Int32.in_range z -> Int32.wrap z = z.
Proof.
  unfold Int32.in_range, Int32.wrap, Int32.min_signed, Int32.max_signed, Int32.modulus.
  intros Hz. rewrite Z.mod_small; lia.
Qed.

Lemma in_rangeb_spec (z : Z) : Int32.in_rangeb z = true <-> Int32.in_range z.
Proof. unfold Int32.in_rangeb, Int32.in_range. rewrite andb_true_iff. lia. Qed.

Lemma decode_encode_le (x : Z) : Int32.decode_le (Int32.encode_le x) = Some (Int32.wrap x).
Proof.
  unfold Int32.encode_le, Int32.decode_le.
  rewrite !byte_to_of_Z by (apply Z.mod_pos_bound; lia).
  f_equal. unfold Int32.wrap, Int32.modulus.
  change (2 ^ 31) with 2147483648. change (2 ^ 32) with 4294967296.
  Z.div_mod_to_equations. lia.
Qed.

Lemma decode_encode (bo : Int32.byte_order) (x : Z) :
  Int32.decode bo (Int32.encode bo x) = Some (Int32.wrap x).
Proof.
  destruct bo; unfold Int32.decode, Int32.encode.
  - apply decode_encode_le.
  - rewrite reverse_involutive. apply decode_encode_le.
Qed.

Lemma length_encode (bo : Int32.byte_order) (x : Z) :
  length (Int32.encode bo x) = 4%nat.
Proof. destruct bo; reflexivity. Qed.

Lemma decode_in_range (bo : Int32.byte_order) (bs : list byte) (x : Z) :
  Int32.decode bo bs = Some x -> Int32.in_range x.
Proof.
  assert (Hle : forall l, Int32.decode_le l = Some x -> Int32.in_range x).
  { intros l. unfold Int32.decode_le.
    destruct l as [|b0 [|b1 [|b2 [|b3 [|? ?]]]]]; try discriminate.
    intros [= <-]. apply wrap_in_range. }
  destruct bo; simpl; eauto.
Qed.

(** ** Loads and stores in the arena *)

Lemma in_bounds_spec (a : list byte) (off n : Z) :
  Arena.in_bounds a off n = true
  <-> 0 <= off /\ 0 <= n /\ off + n <= Z.of_nat (length a).
Proof. unfold Arena.in_bounds. rewrite !andb_true_iff. lia. Qed.

Lemma store_bytes_Some (a : list byte) (off : Z) (bs : list byte) :
  0 <= off -> off + Z.of_nat (length bs) <= Z.of_nat (length a) ->
  Arena.store_bytes a off bs = Some (list_inserts (Z.to_nat off) bs a).
Proof.
  intros H1 H2. unfold Arena.store_bytes.
  destruct (Arena.in_bounds a off _) eqn:E; [done|].
  apply not_true_iff_false in E. rewrite in_bounds_spec in E. lia.
Qed.

Lemma store_bytes_inv (a : list byte) (off : Z) (bs a' : list byte) :
  Arena.store_bytes a off bs = Some a' ->
  0 <= off /\ off + Z.of_nat (length bs) <= Z.of_nat (length a)
  /\ a' = list_inserts (Z.to_nat off) bs a.
Proof.
  unfold Arena.store_bytes.
  destruct (Arena.in_bounds a off _) eqn:E; [|discriminate].
  apply in_bounds_spec in E. intros [= <-]. tauto.
Qed.

Lemma store_bytes_length (a : list byte) (off : Z) (bs a' : list byte) :
  Arena.store_bytes a off bs = Some a' -> length a' = length a.
Proof.
  intros H. apply store_bytes_inv in H as (_ & _ & ->). apply length_inserts.
Qed.

Lemma load_bytes_Some (a : list byte) (off n : Z) :
  0 <= off -> 0 <= n -> off + n <= Z.of_nat (length a) ->
  Arena.load_bytes a off n = Some (take (Z.to_nat n) (drop (Z.to_nat off) a)).
Proof.
  intros H1 Hn H2. unfold Arena.load_bytes.
  destruct (Arena.in_bounds a off n) eqn:E; [done|].
  apply not_true_iff_false in E. rewrite in_bounds_spec in E. lia.
Qed.

Lemma load_bytes_inv (a : list byte) (off n : Z) (bs : list byte) :
  Arena.load_bytes a off n = Some bs ->
  0 <= off /\ 0 <= n /\ off + n <= Z.of_nat (length a)
  /\ bs = take (Z.to_nat n) (drop (Z.to_nat off) a).
Proof.
  unfold Arena.load_bytes.
  destruct (Arena.in_bounds a off n) eqn:E; [|discriminate].
  apply in_bounds_spec in E. intros [= <-]. tauto.
Qed.

Lemma load_bytes_length (a : list byte) (off n : Z) (bs : list byte) :
  Arena.load_bytes a off n = Some bs -> Z.of_nat (length bs) = n.
Proof.
  intros H. apply load_bytes_inv in H as (H1 & Hn & H2 & ->).
  rewrite length_take, length_drop. lia.
Qed.

Lemma list_inserts_all {A} (k l : list A) :
  length k = length l -> list_inserts 0 k l = k.
Proof.
  intros H. rewrite <- (app_nil_r l), list_inserts_0_r by done. apply app_nil_r.
Qed.

(** A load of the bytes just stored gives them back. *)
Lemma load_store_same (a : list byte) (off : Z) (bs a' : list byte) :
  Arena.store_bytes a off bs = Some a' ->
  Arena.load_bytes a' off (Z.of_nat (length bs)) = Some bs.
Proof.
  intros H. apply store_bytes_inv in H as (H1 & H2 & ->).
  rewrite load_bytes_Some by (rewrite ?length_inserts; lia).
  rewrite Nat2Z.id.
  f_equal. apply list_eq. intros i.
  rewrite lookup_take, lookup_drop.
  case_decide as Hi.
  - rewrite list_lookup_inserts by lia. f_equal. lia.
  - symmetry. apply lookup_ge_None. lia.
Qed.

(** A store leaves every disjoint range as it was. *)
Lemma load_store_other (a : list byte) (off : Z) (bs a' : list byte) (off' n : Z) :
  Arena.store_bytes a off bs = Some a' ->
  off' + n <= off \/ off + Z.of_nat (length bs) <= off' ->
  Arena.load_bytes a' off' n = Arena.load_bytes a off' n.
Proof.
  intros H Hd. apply store_bytes_inv in H as (H1 & H2 & ->).
  unfold Arena.load_bytes, Arena.in_bounds. rewrite length_inserts.
  destruct (_ && _) eqn:E; [|done].
  rewrite !andb_true_iff in E. destruct E as [[E1 E0] E2].
  f_equal. apply list_eq. intros i.
  rewrite !lookup_take. case_decide as Hi; [|done].
  rewrite !lookup_drop.
  destruct Hd as [Hd|Hd].
  - apply list_lookup_inserts_lt. lia.
  - apply list_lookup_inserts_ge. lia.
Qed.

Lemma get_set_same (bo : Int32.byte_order) (a a' : list byte) (off x : Z) :
  Arena.set_int32 bo a off x = Some a' ->
  Arena.get_int32 bo a' off = Some (Int32.wrap x).
Proof.
  unfold Arena.set_int32, Arena.get_int32. intros H.
  apply load_store_same in H. rewrite length_encode in H.
  change (Z.of_nat 4) with 4 in H. rewrite H. simpl.
  apply decode_encode.
Qed.

Lemma get_set_other (bo : Int32.byte_order) (a a' : list byte) (off x off' : Z) :
  Arena.set_int32 bo a off x = Some a' ->
  off' + 4 <= off \/ off + 4 <= off' ->
  Arena.get_int32 bo a' off' = Arena.get_int32 bo a off'.
Proof.
  unfold Arena.set_int32, Arena.get_int32. intros H Hd.
  erewrite load_store_other; [done|exact H|].
  rewrite length_encode. lia.
Qed.

Lemma get_store_other (bo : Int32.byte_order) (a a' bs : list byte) (off off' : Z) :
  Arena.store_bytes a off bs = Some a' ->
  off' + 4 <= off \/ off + Z.of_nat (length bs) <= off' ->
  Arena.get_int32 bo a' off' = Arena.get_int32 bo a off'.
Proof.
  unfold Arena.get_int32. intros H Hd.
  erewrite load_store_other; [done|exact H|]. lia.
Qed.

Lemma set_int32_Some (bo : Int32.byte_order) (a : list byte) (off x : Z) :
  0 <= off -> off + 4 <= Z.of_nat (length a) ->
  exists a', Arena.set_int32 bo a off x = Some a' /\ length a' = length a.
Proof.
  intros H1 H2. unfold Arena.set_int32.
  rewrite store_bytes_Some by (rewrite ?length_encode; lia).
  eexists; split; [done|]. apply length_inserts.
Qed.

Lemma set_int32_length (bo : Int32.byte_order) (a a' : list byte) (off x : Z) :
  Arena.set_int32 bo a off x = Some a' -> length a' = length a.
Proof. apply store_bytes_length. Qed.

Lemma set_int32_inv (bo : Int32.byte_order) (a a' : list byte) (off x : Z) :
  Arena.set_int32 bo a off x = Some a' ->
  0 <= off /\ off + 4 <= Z.of_nat (length a).
Proof.
  unfold Arena.set_int32. intros H.
  apply store_bytes_inv in H as (H1 & H2 & _). rewrite length_encode in H2. lia.
Qed.

Lemma get_int32_inv (bo : Int32.byte_order) (a : list byte) (off x : Z) :
  Arena.get_int32 bo a off = Some x ->
  0 <= off /\ off + 4 <= Z.of_nat (length a) /\ Int32.in_range x.
Proof.
  unfold Arena.get_int32. intros H.
  destruct (Arena.load_bytes a off 4) as [bs|] eqn:E; [|discriminate].
  apply load_bytes_inv in E as (H1 & _ & H2 & _). simpl in H.
  apply decode_in_range in H. split; [lia|]. split; [lia|exact H].
Qed.

Lemma get_int32_Some (bo : Int32.byte_order) (a : list byte) (off : Z) :
  0 <= off -> off + 4 <= Z.of_nat (length a) ->
  exists x, Arena.get_int32 bo a off = Some x.
Proof.
  intros H1 H2. unfold Arena.get_int32.
  rewrite load_bytes_Some by lia. simpl. change (Z.to_nat 4) with 4%nat.
  assert (Hl : length (take 4 (drop (Z.to_nat off) a)) = 4%nat).
  { rewrite length_take, length_drop. lia. }
  destruct (take 4 (drop (Z.to_nat off) a)) as [|b0 [|b1 [|b2 [|b3 [|? ?]]]]];
    try discriminate.
  destruct bo; simpl; eauto.
Qed.

(** ** Sequencing of calls *)

Lemma bind_Ok_inv {A B} (m : outcome A) (f : A -> outcome B) (b : B) :
  m ≫= f = Ok b -> exists a, m = Ok a /\ f a = Ok b.
Proof. destruct m; simpl; intros H; try discriminate. eauto. Qed.

Lemma access_Ok_inv {A} (o : option A) (a : A) : access o = Ok a -> o = Some a.
Proof. destruct o; simpl; congruence. Qed.

Lemma add_int_Ok_inv (x y z : Z) :
  add_int x y = Ok z -> z = x + y /\ Int32.in_range (x + y).
Proof.
  unfold add_int. destruct (Int32.in_rangeb (x + y)) eqn:E; [|discriminate].
  apply in_rangeb_spec in E. intros [= <-]. done.
Qed.

Lemma add_int_Ok (x y : Z) : Int32.in_range (x + y) -> add_int x y = Ok (x + y).
Proof.
  intros H. unfold add_int. apply in_rangeb_spec in H. by rewrite H.
Qed.

(** Linear arithmetic over the constants of the program. *)
Ltac ilia :=
  unfold Int32.in_range, Int32.max_signed, Int32.min_signed,
    sizeof_int32, HLP_STOP, HLP_LOOP in *; lia.

Ltac inv_bind H :=
  let a := fresh "v" in
  let H1 := fresh H "a" in
  apply bind_Ok_inv in H as (a & H1 & H);
  try (apply access_Ok_inv in H1).

(** ** The bookkeeping invariant *)

Section Invariant.

Context (bo : Int32.byte_order).

Lemma get_int32_zeros (n : nat) :
  (4 <= n)%nat -> Arena.get_int32 bo (replicate n x00) 0 = Some 0.
Proof.
  intros Hn. unfold Arena.get_int32.
  rewrite load_bytes_Some by (rewrite ?length_replicate; lia).
  change (Z.to_nat 0) with 0%nat. change (Z.to_nat 4) with 4%nat.
  rewrite drop_0, take_replicate.
  replace (4 `min` n)%nat with 4%nat by lia.
  destruct bo; reflexivity.
Qed.

Lemma wf_init (heap : option (list byte)) (numBytes : Z) (q : TinyPipe) (r : Z) :
  numBytes <= Int32.max_signed ->
  tpipe_init bo heap numBytes = Ok (q, r) ->
  wf bo q /\ r = numBytes /\ 4 <= numBytes.
Proof.
  intros Hmax. unfold tpipe_init.
  destruct (0 <? numBytes) eqn:Hpos; [|discriminate].
  destruct heap as [fresh|]; simpl; [|discriminate].
  apply Z.ltb_lt in Hpos. intros H. inv_bind H. injection H as <- <-.
  pose proof (set_int32_inv _ _ _ _ _ Ha) as [_ Hb].
  pose proof (set_int32_length _ _ _ _ _ Ha) as Hl.
  rewrite length_resize in Hb, Hl.
  split; [|lia].
  split; simpl; try lia.
  exists 0. split; [|lia].
  erewrite get_set_same by exact Ha. reflexivity.
Qed.

Lemma wf_hasData (q q' : TinyPipe) (x : Z) :
  wf bo q -> tpipe_hasData bo q = Ok (q', x) -> wf bo q'.
Proof.
  intros [] H. unfold tpipe_hasData in H. inv_bind H.
  destruct (v =? HLP_LOOP).
  - inv_bind H. injection H as <- <-. by split.
  - injection H as <- <-. by split.
Qed.

Lemma wf_consume (q q' : TinyPipe) :
  wf bo q -> tpipe_consume bo q = Ok q' -> wf bo q'.
Proof.
  intros [] H. unfold tpipe_consume in H. inv_bind H.
  destruct (v =? HLP_STOP); [discriminate|].
  inv_bind H. injection H as <-. by split.
Qed.

Lemma wf_clear (q q' : TinyPipe) :
  wf bo q -> tpipe_clear q = Ok q' -> wf bo q'.
Proof.
  intros [] H. unfold tpipe_clear in H.
  destruct (len q <? 0); [discriminate|].
  inv_bind H. injection H as <-.
  pose proof (store_bytes_length _ _ _ _ Ha) as Hl.
  apply store_bytes_inv in Ha as (_ & _ & ->).
  split; simpl; try lia.
  exists 0. split; [|lia].
  rewrite list_inserts_all by (rewrite length_replicate; lia).
  apply get_int32_zeros. lia.
Qed.

Lemma wf_getWriteBuffer (q q' : TinyPipe) (bytesToWrite : Z) (p : option Z) :
  wf bo q -> tpipe_getWriteBuffer bo q bytesToWrite = Ok (q', p) -> wf bo q'.
Proof.
  intros Hwf H. unfold tpipe_getWriteBuffer in H.
  set (total := Int32.wrap (bytesToWrite + 2 * sizeof_int32)) in *.
  destruct (total <=? remainingBytes q) eqn:Htail.
  { destruct (_ && _); injection H as <- <-; exact Hwf. }
  destruct (total <=? len q) eqn:Hfit; [|injection H as <- <-; exact Hwf].
  destruct (_ || _); [injection H as <- <-; exact Hwf|].
  inv_bind H. inv_bind H. injection H as <- <-.
  destruct Hwf. apply Z.leb_gt in Htail. apply Z.leb_le in Hfit.
  pose proof (set_int32_length _ _ _ _ _ Ha) as Hl1.
  pose proof (set_int32_length _ _ _ _ _ Ha0) as Hl2.
  split; simpl; try lia.
  exists 0. split; [|lia].
  erewrite get_set_other by (first [exact Ha0 | lia]).
  erewrite get_set_same by exact Ha. reflexivity.
Qed.

(** On a well-formed pipe [tpipe_getWriteBuffer] returns: neither of its two
    stores leaves the arena. *)
Lemma getWriteBuffer_returns (q : TinyPipe) (bytesToWrite : Z) :
  wf bo q -> exists q' p, tpipe_getWriteBuffer bo q bytesToWrite = Ok (q', p).
Proof.
  intros []. unfold tpipe_getWriteBuffer.
  set (total := Int32.wrap (bytesToWrite + 2 * sizeof_int32)) in *.
  destruct (total <=? remainingBytes q) eqn:Htail.
  { destruct (_ && _); eauto. }
  destruct (total <=? len q) eqn:Hfit; [|eauto].
  destruct (_ || _); [eauto|].
  destruct (set_int32_Some bo (buffer q) 0 HLP_STOP) as (b1 & E1 & L1); [lia..|].
  destruct (set_int32_Some bo b1 (writeHead q) HLP_LOOP) as (b2 & E2 & L2); [lia..|].
  rewrite E1. simpl. rewrite E2. simpl. eauto.
Qed.

Lemma wf_produce (q q' : TinyPipe) (numBytes : Z) :
  wf bo q -> 0 <= numBytes -> tpipe_produce bo q numBytes = Ok q' -> wf bo q'.
Proof.
  intros [] Hn H. unfold tpipe_produce in H. inv_bind H.
  apply add_int_Ok_inv in Ha as [-> Hr].
  destruct (remainingBytes q >=? _) eqn:Hrem; [|discriminate].
  apply Z.geb_le in Hrem.
  inv_bind H. inv_bind H. injection H as <-.
  pose proof (set_int32_length _ _ _ _ _ Ha) as Hl1.
  pose proof (set_int32_length _ _ _ _ _ Ha0) as Hl2.
  assert (Hw : Int32.wrap (remainingBytes q - (sizeof_int32 + numBytes))
               = remainingBytes q - (sizeof_int32 + numBytes)).
  { apply wrap_id. ilia. }
  split; simpl; rewrite ?Hw; try ilia.
  destruct wf_start0 as (x & Hx & Hx0).
  destruct wf_write0 as [Hw0|Hw4].
  - exists numBytes. split; [|lia].
    erewrite get_set_same by (rewrite <- Hw0; exact Ha0).
    f_equal. apply wrap_id. ilia.
  - exists x. split; [|lia].
    erewrite get_set_other by (first [exact Ha0 | ilia]).
    erewrite get_set_other by (first [exact Ha | ilia]).
    exact Hx.
Qed.

Lemma memcpy_inv (a : list byte) (dst : Z) (data : list byte) (numBytes : Z)
      (a' : list byte) :
  memcpy a dst data numBytes = Ok a' ->
  0 <= numBytes
  /\ exists src, Arena.load_bytes data 0 numBytes = Some src
                 /\ Z.of_nat (length src) = numBytes
                 /\ Arena.store_bytes a dst src = Some a'.
Proof.
  unfold memcpy. destruct (numBytes <? 0) eqn:E; [discriminate|].
  apply Z.ltb_ge in E. intros H. inv_bind H. apply access_Ok_inv in H.
  split; [done|]. exists v. split; [done|]. split; [|done].
  apply load_bytes_length in Ha. lia.
Qed.

(** Filling the region returned by [tpipe_getWriteBuffer] keeps the
    bookkeeping: the region starts past the first slot of the arena. *)
Lemma wf_with_buffer (q : TinyPipe) (dst : Z) (data : list byte) (numBytes : Z)
      (a : list byte) :
  wf bo q -> 4 <= dst ->
  memcpy (buffer q) dst data numBytes = Ok a ->
  wf bo (with_buffer q a).
Proof.
  intros [] Hdst H. apply memcpy_inv in H as (Hn & src & _ & Hl & Hst).
  pose proof (store_bytes_length _ _ _ _ Hst) as Hl'.
  split; simpl; try lia.
  destruct wf_start0 as (x & Hx & Hx0). exists x. split; [|done].
  erewrite get_store_other by (first [exact Hst | lia]). exact Hx.
Qed.

Lemma getWriteBuffer_dst (q q' : TinyPipe) (bytesToWrite dst : Z) :
  wf bo q -> tpipe_getWriteBuffer bo q bytesToWrite = Ok (q', Some dst) ->
  dst = writeHead q' + sizeof_int32.
Proof.
  intros Hwf H. unfold tpipe_getWriteBuffer in H.
  destruct (_ <=? remainingBytes q).
  { destruct (_ && _); [discriminate|]. injection H as <- <-. done. }
  destruct (_ <=? len q); [|discriminate].
  destruct (_ || _); [discriminate|].
  inv_bind H. inv_bind H. injection H as <- <-. done.
Qed.

Lemma wf_write_frame (q q' : TinyPipe) (data : list byte) (numBytes r : Z) :
  wf bo q -> 0 <= numBytes ->
  tpipe_write bo q data numBytes = Ok (q', r) -> wf bo q'.
Proof.
  intros Hwf Hn H. unfold tpipe_write in H. inv_bind H.
  destruct v as [q1 [dst|]].
  - pose proof (wf_getWriteBuffer _ _ _ _ Hwf Ha) as Hwf1.
    pose proof (getWriteBuffer_dst _ _ _ _ Hwf Ha) as Hdst.
    inv_bind H. inv_bind H. injection H as <- <-.
    eapply wf_produce; [|exact Hn|exact Ha1].
    eapply (wf_with_buffer q1); [exact Hwf1| |exact Ha0].
    destruct Hwf1. unfold sizeof_int32 in *. lia.
  - injection H as <- <-. eapply wf_getWriteBuffer; eauto.
Qed.

(** Every reachable pipe is well formed. *)
Lemma reachable_wf (q : TinyPipe) : reachable bo q -> wf bo q.
Proof.
  induction 1 as [fresh n q r Hn H|q q' x _ IH H|q b q' p _ IH Hb H
                 |q b q1 dst data n a q' _ IH Hb H Hn Hm Hp
                 |q data n q' r _ IH Hn H|q q' _ IH H|q q' _ IH H].
  - by apply wf_init in H as [? _].
  - eauto using wf_hasData.
  - eauto using wf_getWriteBuffer.
  - pose proof (wf_getWriteBuffer _ _ _ _ IH H) as Hwf1.
    pose proof (getWriteBuffer_dst _ _ _ _ IH H) as Hdst.
    eapply wf_produce; [|apply Hn|exact Hp].
    eapply (wf_with_buffer q1); [exact Hwf1| |exact Hm].
    destruct Hwf1. unfold sizeof_int32 in *. lia.
  - eapply wf_write_frame; [exact IH| |exact H]. lia.
  - eauto using wf_consume.
  - eauto using wf_clear.
Qed.

End Invariant.

(** ** The consumer side *)

Section Consumer.

Context (bo : Int32.byte_order).

(** C6: when the read cursor lies in the arena and the slot it points at
    holds [x], [tpipe_hasData] returns the value of the slot the read cursor
    points at after a [HLP_LOOP] has been resolved by one move to the start of
    the arena and one more read: the frame length at a committed header, 0 at
    a [HLP_STOP].  The read cursor is at the arena start when [x] is
    [HLP_LOOP], and the whole pipe is as before otherwise. *)
Theorem hasData_spec (q : TinyPipe) (x : Z) :
  Arena.get_int32 bo (buffer q) (readHead q) = Some x ->
  exists q' y,
    tpipe_hasData bo q = Ok (q', y)
    /\ q' = (if x =? HLP_LOOP
             then mkTinyPipe (buffer q) (writeHead q) 0 (len q) (remainingBytes q)
             else q)
    /\ Arena.get_int32 bo (buffer q') (readHead q') = Some y
    /\ (x <> HLP_LOOP -> y = x)
    /\ (x = HLP_LOOP -> readHead q' = 0 /\ Arena.get_int32 bo (buffer q) 0 = Some y).
Proof.
  intros Hx. unfold tpipe_hasData. rewrite Hx. simpl.
  destruct (x =? HLP_LOOP) eqn:E.
  - apply Z.eqb_eq in E.
    apply get_int32_inv in Hx as (H0 & H4 & _).
    destruct (get_int32_Some bo (buffer q) 0) as [y Hy]; [lia..|].
    rewrite Hy. simpl. exists (mkTinyPipe (buffer q) (writeHead q) 0 (len q) (remainingBytes q)), y.
    repeat split; try done.
  - apply Z.eqb_neq in E. exists q, x. repeat split; try done.
Qed.

(** C7: when the slot at the read cursor holds [HLP_STOP] the assertion of
    [tpipe_consume] fails; otherwise the read cursor moves on by 4 plus the
    value of that slot, and the arena and the other fields stay as they
    were. *)
Theorem consume_spec (q : TinyPipe) (x : Z) :
  Arena.get_int32 bo (buffer q) (readHead q) = Some x ->
  (x = HLP_STOP -> tpipe_consume bo q = AssertionFailure)
  /\ (x <> HLP_STOP ->
      tpipe_consume bo q
      = Ok (mkTinyPipe (buffer q) (writeHead q) (readHead q + (4 + x))
                       (len q) (remainingBytes q))).
Proof.
  intros Hx. unfold tpipe_consume. rewrite Hx. simpl. split; intros E.
  - subst x. reflexivity.
  - apply Z.eqb_neq in E. rewrite E. reflexivity.
Qed.

(** More fuel does not change what the loop of [tpipe_getTotalData] found. *)
Lemma getTotalData_loop_mono (fuel fuel' : nat) (q : TinyPipe) (p acc : Z) (r : outcome Z) :
  (fuel <= fuel')%nat ->
  getTotalData_loop bo fuel q p acc = Some r ->
  getTotalData_loop bo fuel' q p acc = Some r.
Proof.
  revert fuel' p acc. induction fuel as [|fuel IH]; intros fuel' p acc Hle H.
  - discriminate.
  - destruct fuel' as [|fuel']; [lia|]. simpl in *.
    destruct (Arena.get_int32 bo (buffer q) p) as [d|]; [|done].
    destruct (d =? HLP_STOP); [done|].
    destruct (d =? HLP_LOOP); [apply IH; [lia|done]|].
    destruct (add_int acc d); try done. apply IH; [lia|done].
Qed.

(** C8: on a pipe whose arena has [len] bytes, at least the 4 of a marker,
    [tpipe_clear] puts both cursors at the arena start, sets the
    remaining-bytes counter to the capacity and makes every byte of the arena
    zero; then [tpipe_hasData] returns 0 and [tpipe_getTotalData] returns 0. *)
Theorem clear_spec (q : TinyPipe) :
  Z.of_nat (length (buffer q)) = len q ->
  4 <= len q ->
  exists q',
    tpipe_clear q = Ok q'
    /\ writeHead q' = 0 /\ readHead q' = 0
    /\ remainingBytes q' = len q /\ len q' = len q
    /\ buffer q' = replicate (length (buffer q)) x00
    /\ tpipe_hasData bo q' = Ok (q', 0)
    /\ forall fuel, (1 <= fuel)%nat -> tpipe_getTotalData bo fuel q' = Some (Ok 0).
Proof.
  intros Hlen H4. unfold tpipe_clear.
  destruct (len q <? 0) eqn:E; [apply Z.ltb_lt in E; lia|].
  rewrite store_bytes_Some by (rewrite ?length_replicate; lia).
  rewrite list_inserts_all by (rewrite length_replicate; lia).
  simpl. eexists. split; [reflexivity|]. simpl.
  assert (Hz : Arena.get_int32 bo (replicate (Z.to_nat (len q)) x00) 0 = Some 0).
  { apply get_int32_zeros. lia. }
  repeat split.
  - f_equal. lia.
  - unfold tpipe_hasData. simpl. rewrite Hz. reflexivity.
  - intros fuel Hf. apply (getTotalData_loop_mono 1); [done|].
    unfold tpipe_getTotalData. simpl. rewrite Hz. reflexivity.
Qed.

End Consumer.

(** ** The producer side *)

Section Producer.

Context (bo : Int32.byte_order).

(** C9: a [tpipe_getWriteBuffer] that returns [NULL], by whichever of its
    three [return NULL], leaves the pipe as it was: both cursors, the
    remaining-bytes counter, the capacity and every byte of the arena. *)
Theorem getWriteBuffer_null_unchanged (q q' : TinyPipe) (bytesToWrite : Z) :
  tpipe_getWriteBuffer bo q bytesToWrite = Ok (q', None) -> q' = q.
Proof.
  unfold tpipe_getWriteBuffer.
  destruct (_ <=? remainingBytes q).
  { destruct (_ && _); intros [= <-]; reflexivity. }
  destruct (_ <=? len q); [|intros [= <-]; reflexivity].
  destruct (_ || _); [intros [= <-]; reflexivity|].
  intros H. inv_bind H. inv_bind H. discriminate.
Qed.

(** What a successful [tpipe_getWriteBuffer] guarantees to the producer. *)
Lemma getWriteBuffer_room (q q1 : TinyPipe) (bytesToWrite dst : Z) :
  wf bo q ->
  0 <= bytesToWrite <= Int32.max_signed - 8 ->
  tpipe_getWriteBuffer bo q bytesToWrite = Ok (q1, Some dst) ->
  wf bo q1
  /\ bytesToWrite + 8 <= remainingBytes q1
  /\ dst = writeHead q1 + 4
  /\ readHead q1 = readHead q /\ len q1 = len q.
Proof.
  intros Hwf Hb H.
  pose proof (wf_getWriteBuffer _ _ _ _ _ Hwf H) as Hwf1.
  pose proof (getWriteBuffer_dst _ _ _ _ _ Hwf H) as Hdst.
  split; [done|]. split; [|split; [exact Hdst|]].
  - unfold tpipe_getWriteBuffer in H.
    rewrite wrap_id in H by ilia.
    destruct (_ <=? remainingBytes q) eqn:Htail.
    { apply Z.leb_le in Htail.
      destruct (_ && _); [discriminate|]. injection H as <- _. ilia. }
    destruct (_ <=? len q) eqn:Hfit; [|discriminate].
    apply Z.leb_le in Hfit.
    destruct (_ || _); [discriminate|].
    inv_bind H. inv_bind H. injection H as <- _. simpl. ilia.
  - unfold tpipe_getWriteBuffer in H.
    destruct (_ <=? remainingBytes q).
    { destruct (_ && _); [discriminate|]. injection H as <- _. done. }
    destruct (_ <=? len q); [|discriminate].
    destruct (_ || _); [discriminate|].
    inv_bind H. inv_bind H. injection H as <- _. done.
Qed.

(** [tpipe_produce] on a pipe with room for the frame and one more marker. *)
Lemma produce_ok (q : TinyPipe) (numBytes : Z) :
  wf bo q -> 0 <= numBytes -> numBytes + 8 <= remainingBytes q ->
  exists q2,
    tpipe_produce bo q numBytes = Ok q2
    /\ Arena.get_int32 bo (buffer q2) (writeHead q + 4 + numBytes) = Some HLP_STOP
    /\ Arena.get_int32 bo (buffer q2) (writeHead q) = Some numBytes
    /\ writeHead q2 = writeHead q + (4 + numBytes)
    /\ remainingBytes q2 = remainingBytes q - (4 + numBytes)
    /\ readHead q2 = readHead q /\ len q2 = len q
    /\ Arena.load_bytes (buffer q2) (writeHead q + 4) numBytes
       = Arena.load_bytes (buffer q) (writeHead q + 4) numBytes.
Proof.
  intros [] Hn Hroom. unfold tpipe_produce.
  rewrite add_int_Ok by ilia. simpl.
  destruct (remainingBytes q >=? _) eqn:E; [|rewrite Z.geb_leb in E; apply Z.leb_gt in E; ilia].
  destruct (set_int32_Some bo (buffer q) (writeHead q + (sizeof_int32 + numBytes)) HLP_STOP)
    as (b1 & E1 & L1); [ilia..|].
  destruct (set_int32_Some bo b1 (writeHead q) numBytes) as (b2 & E2 & L2); [ilia..|].
  rewrite E1. simpl. rewrite E2. simpl.
  eexists. split; [reflexivity|]. simpl.
  repeat split.
  - erewrite get_set_other by (first [exact E2 | ilia]).
    replace (writeHead q + 4 + numBytes) with (writeHead q + (sizeof_int32 + numBytes))
      by ilia.
    erewrite get_set_same by exact E1. reflexivity.
  - erewrite get_set_same by exact E2. f_equal. apply wrap_id. ilia.
  - apply wrap_id. ilia.
  - unfold Arena.set_int32 in E1, E2.
    erewrite load_store_other; [|exact E2|rewrite length_encode; lia].
    erewrite load_store_other; [|exact E1|rewrite length_encode; ilia].
    reflexivity.
Qed.

(** C5 (amended): on a well-formed pipe, after a [tpipe_getWriteBuffer] for
    [numBytes] bytes with [0 <= numBytes <= INT_MAX - 8] has returned a
    pointer, [tpipe_produce] of [numBytes] returns; the slot right after the
    payload holds [HLP_STOP], the slot at the old write cursor holds
    [numBytes], the write cursor has moved on by [4 + numBytes] and the
    remaining-bytes counter has gone down by [4 + numBytes]. *)
Theorem produce_postcondition (q q1 : TinyPipe) (numBytes dst : Z) :
  wf bo q ->
  0 <= numBytes <= Int32.max_signed - 8 ->
  tpipe_getWriteBuffer bo q numBytes = Ok (q1, Some dst) ->
  exists q2,
    tpipe_produce bo q1 numBytes = Ok q2
    /\ Arena.get_int32 bo (buffer q2) (writeHead q1 + 4 + numBytes) = Some HLP_STOP
    /\ Arena.get_int32 bo (buffer q2) (writeHead q1) = Some numBytes
    /\ writeHead q2 = writeHead q1 + (4 + numBytes)
    /\ remainingBytes q2 = remainingBytes q1 - (4 + numBytes).
Proof.
  intros Hwf Hn H.
  destruct (getWriteBuffer_room _ _ _ _ Hwf Hn H) as (Hwf1 & Hroom & _).
  destruct (produce_ok q1 numBytes Hwf1) as (q2 & Hp & Hs & Hh & Hw & Hr & _);
    [lia..|].
  exists q2. repeat split; assumption.
Qed.

(** The assertion of [tpipe_produce] compares with the remaining-bytes
    counter. *)
Lemma produce_assertion_iff (q : TinyPipe) (numBytes : Z) :
  Int32.in_range (numBytes + 8) ->
  tpipe_produce bo q numBytes = AssertionFailure <-> remainingBytes q < numBytes + 8.
Proof.
  intros Hr. unfold tpipe_produce. rewrite add_int_Ok by ilia. simpl.
  destruct (remainingBytes q >=? _) eqn:E.
  - apply Z.geb_le in E. split; [|ilia].
    destruct (Arena.set_int32 bo (buffer q) _ HLP_STOP) as [b1|]; simpl; [|done].
    destruct (Arena.set_int32 bo b1 _ numBytes) as [b2|]; simpl; done.
  - rewrite Z.geb_leb in E. apply Z.leb_gt in E. split; [ilia|done].
Qed.

(** The remaining-bytes counter after a [tpipe_getWriteBuffer] that returned
    a pointer, for every [int] whose requirement is an [int]. *)
Lemma getWriteBuffer_counter (q q1 : TinyPipe) (bytesToWrite dst : Z) :
  Int32.in_range bytesToWrite -> bytesToWrite <= Int32.max_signed - 8 ->
  tpipe_getWriteBuffer bo q bytesToWrite = Ok (q1, Some dst) ->
  bytesToWrite + 8 <= remainingBytes q1.
Proof.
  intros Hr Hb H. unfold tpipe_getWriteBuffer in H.
  rewrite wrap_id in H by ilia.
  destruct (_ <=? remainingBytes q) eqn:Htail.
  { apply Z.leb_le in Htail.
    destruct (_ && _); [discriminate|]. injection H as <- _. ilia. }
  destruct (_ <=? len q) eqn:Hfit; [|discriminate].
  apply Z.leb_le in Hfit.
  destruct (_ || _); [discriminate|].
  inv_bind H. inv_bind H. injection H as <- _. simpl. ilia.
Qed.

(** C4 (amended): after a [tpipe_getWriteBuffer] for [bytesToWrite] bytes,
    an [int] not above [INT_MAX - 8], has returned a pointer, the
    remaining-bytes counter is at least [bytesToWrite + 8], and for every
    [int] [numBytes] not above [INT_MAX - 8] the assertion of [tpipe_produce]
    fails exactly when [numBytes + 8] is above that counter: never for
    [numBytes <= bytesToWrite], and for a larger [numBytes] only past the end
    of the arena. *)
Theorem produce_assertion_after_acquire (q q1 : TinyPipe) (bytesToWrite dst numBytes : Z) :
  Int32.in_range bytesToWrite -> bytesToWrite <= Int32.max_signed - 8 ->
  tpipe_getWriteBuffer bo q bytesToWrite = Ok (q1, Some dst) ->
  Int32.in_range numBytes -> numBytes <= Int32.max_signed - 8 ->
  bytesToWrite + 8 <= remainingBytes q1
  /\ (tpipe_produce bo q1 numBytes = AssertionFailure
      <-> remainingBytes q1 < numBytes + 8)
  /\ (numBytes <= bytesToWrite -> tpipe_produce bo q1 numBytes <> AssertionFailure).
Proof.
  intros Hrb Hb H Hrn Hn.
  pose proof (getWriteBuffer_counter _ _ _ _ Hrb Hb H) as Hroom.
  assert (Hr : Int32.in_range (numBytes + 8)) by ilia.
  pose proof (produce_assertion_iff q1 numBytes Hr) as Hiff.
  split; [done|]. split; [done|].
  intros Hle Hf. apply Hiff in Hf. lia.
Qed.

End Producer.

(** ** The slot at the arena start *)

Section Start.

Context (bo : Int32.byte_order).

(** In every reachable pipe the slot at the arena start holds a value that is
    not negative: never [HLP_LOOP]. *)
Lemma reachable_start_not_LOOP (q : TinyPipe) :
  reachable bo q ->
  exists x, Arena.get_int32 bo (buffer q) 0 = Some x /\ 0 <= x /\ x <> HLP_LOOP.
Proof.
  intros H. apply reachable_wf in H. destruct H.
  destruct wf_start0 as (x & Hx & Hx0). exists x. repeat split; try done. ilia.
Qed.

(** X10: when [tpipe_getWriteBuffer] changes a well-formed pipe it has
    wrapped: the write cursor is back at the arena start, [HLP_STOP] is stored
    there and [HLP_LOOP] at the old write cursor, which is past the first
    slot. *)
Lemma getWriteBuffer_wrap_markers (q q' : TinyPipe) (bytesToWrite : Z) (p : option Z) :
  wf bo q ->
  tpipe_getWriteBuffer bo q bytesToWrite = Ok (q', p) ->
  q' <> q ->
  4 <= writeHead q
  /\ writeHead q' = 0
  /\ Arena.get_int32 bo (buffer q') 0 = Some HLP_STOP
  /\ Arena.get_int32 bo (buffer q') (writeHead q) = Some HLP_LOOP.
Proof.
  intros Hwf H Hne. unfold tpipe_getWriteBuffer in H.
  destruct (_ <=? remainingBytes q) eqn:Htail.
  { destruct (_ && _); injection H as <- <-; done. }
  destruct (_ <=? len q) eqn:Hfit; [|injection H as <- <-; done].
  destruct (_ || _); [injection H as <- <-; done|].
  inv_bind H. inv_bind H. injection H as <- <-.
  destruct Hwf. apply Z.leb_gt in Htail. apply Z.leb_le in Hfit.
  assert (H4 : 4 <= writeHead q) by lia.
  split; [done|]. split; [done|]. simpl. split.
  - erewrite get_set_other by (first [exact Ha0 | lia]).
    erewrite get_set_same by exact Ha. reflexivity.
  - erewrite get_set_same by exact Ha0. reflexivity.
Qed.

(** X5: [tpipe_hasData] on a reachable pipe never returns [HLP_LOOP]: the one
    re-read at the arena start finds a value that is not negative. *)
Lemma reachable_hasData_not_LOOP (q q' : TinyPipe) (x : Z) :
  reachable bo q -> tpipe_hasData bo q = Ok (q', x) -> x <> HLP_LOOP.
Proof.
  intros Hr H. apply reachable_start_not_LOOP in Hr as (s & Hs & _ & Hne).
  unfold tpipe_hasData in H. inv_bind H.
  destruct (v =? HLP_LOOP) eqn:E.
  - inv_bind H. injection H as _ <-. simpl in Ha0. congruence.
  - injection H as _ <-. by apply Z.eqb_neq in E.
Qed.

End Start.

(** ** Runs of the specification's scenarios *)

Import Scenario.

(** Splits a conjunction of closed equations and evaluates each. *)
Ltac run :=
  repeat match goal with |- _ /\ _ => split end;
  vm_compute; reflexivity.

(** C3 (as stated, fails): in Scenario C the retried write of 20 bytes
    returns 0 again, in either byte order. *)
Lemma scenario_C_retry_fails :
  (tpipe_init Int32.LittleEndian (Some []) 32 = Ok (small_init Int32.LittleEndian, 32)
   /\ tpipe_write Int32.LittleEndian (small_init Int32.LittleEndian) (payload 20 x01) 20
      = Ok (small_first Int32.LittleEndian, 1)
   /\ tpipe_write Int32.LittleEndian (small_first Int32.LittleEndian) (payload 20 x02) 20
      = Ok (small_first Int32.LittleEndian, 0)
   /\ tpipe_consume Int32.LittleEndian (small_first Int32.LittleEndian)
      = Ok (small_consumed Int32.LittleEndian)
   /\ tpipe_write Int32.LittleEndian (small_consumed Int32.LittleEndian) (payload 20 x02) 20
      = Ok (small_consumed Int32.LittleEndian, 0)
   /\ tpipe_getTotalData Int32.LittleEndian 1 (small_consumed Int32.LittleEndian)
      = Some (Ok 0))
  /\ (tpipe_init Int32.BigEndian (Some []) 32 = Ok (small_init Int32.BigEndian, 32)
      /\ tpipe_write Int32.BigEndian (small_init Int32.BigEndian) (payload 20 x01) 20
         = Ok (small_first Int32.BigEndian, 1)
      /\ tpipe_write Int32.BigEndian (small_first Int32.BigEndian) (payload 20 x02) 20
         = Ok (small_first Int32.BigEndian, 0)
      /\ tpipe_consume Int32.BigEndian (small_first Int32.BigEndian)
         = Ok (small_consumed Int32.BigEndian)
      /\ tpipe_write Int32.BigEndian (small_consumed Int32.BigEndian) (payload 20 x02) 20
         = Ok (small_consumed Int32.BigEndian, 0)
      /\ tpipe_getTotalData Int32.BigEndian 1 (small_consumed Int32.BigEndian)
         = Some (Ok 0)).
Proof. run. Qed.

(** C4 (as stated, fails): on a fresh pipe of 64 bytes
    [tpipe_getWriteBuffer] for 10 bytes returns a pointer, and a
    [tpipe_produce] of 20 bytes, more than was asked for, returns without a
    failed assertion. *)
Lemma produce_beyond_request_returns :
  tpipe_getWriteBuffer Int32.LittleEndian (fresh64 Int32.LittleEndian) 10
  = Ok (fresh64 Int32.LittleEndian, Some 4)
  /\ 10 < 20
  /\ exists q, tpipe_produce Int32.LittleEndian (fresh64 Int32.LittleEndian) 20 = Ok q
               /\ writeHead q = 24 /\ remainingBytes q = 40.
Proof.
  split; [vm_compute; reflexivity|]. split; [lia|].
  eexists. split; [vm_compute; reflexivity|]. split; reflexivity.
Qed.

(** C5 (as stated, fails): on a fresh pipe of 64 bytes
    [tpipe_getWriteBuffer] returns a pointer for -1 bytes and for [INT_MAX]
    bytes.  After [tpipe_produce] of -1 the slot behind the payload end, at
    offset 3, does not hold [HLP_STOP]: the header stored at offset 0 covers
    its first byte and it reads 255.  [tpipe_produce] of [INT_MAX] has no
    defined behaviour: [numBytes + 8] overflows. *)
Lemma produce_after_acquire_out_of_range :
  tpipe_getWriteBuffer Int32.LittleEndian (fresh64 Int32.LittleEndian) (-1)
  = Ok (fresh64 Int32.LittleEndian, Some 4)
  /\ tpipe_produce Int32.LittleEndian (fresh64 Int32.LittleEndian) (-1)
     = Ok (pipe_of' (tpipe_produce Int32.LittleEndian (fresh64 Int32.LittleEndian) (-1)))
  /\ Arena.get_int32 Int32.LittleEndian
       (buffer (pipe_of' (tpipe_produce Int32.LittleEndian
                            (fresh64 Int32.LittleEndian) (-1))))
       (writeHead (fresh64 Int32.LittleEndian) + 4 + -1)
     = Some 255
  /\ 255 <> HLP_STOP
  /\ tpipe_getWriteBuffer Int32.LittleEndian (fresh64 Int32.LittleEndian) 2147483647
     = Ok (fresh64 Int32.LittleEndian, Some 4)
  /\ tpipe_produce Int32.LittleEndian (fresh64 Int32.LittleEndian) 2147483647
     = Undefined.
Proof.
  split; [vm_compute; reflexivity|]. split; [vm_compute; reflexivity|].
  split; [vm_compute; reflexivity|]. split; [discriminate|].
  split; vm_compute; reflexivity.
Qed.

(** C1 (fails on this run): four frames A, B, C, D are written, each
    [tpipe_write] returning 1, and A is read after B was written.  Reading
    on then gives no frame at all with little-endian integers, where the
    header of B has become [HLP_STOP], and runs out of the arena with
    big-endian integers, where the header of B has become 44: in neither
    case the frames B, C, D. *)
Theorem fifo_frames_lost :
  (ring_run Int32.LittleEndian
   /\ drain Int32.LittleEndian 4 (ring_BCD Int32.LittleEndian)
      = Ok (ring_BCD Int32.LittleEndian, []))
  /\ (ring_run Int32.BigEndian
      /\ drain Int32.BigEndian 4 (ring_BCD Int32.BigEndian) = Undefined).
Proof. unfold ring_run. run. Qed.

(** C2 (fails on this run): frame B is unread in bytes 24 to 327, behind the
    read cursor at 24.  The write of the 10 bytes of D stores its header in
    bytes 9 to 12, its payload in bytes 13 to 22 and its [HLP_STOP] in bytes
    23 to 26; [tpipe_getWriteBuffer] returns the pointer 13, not [NULL], and
    after the write the header of B no longer reads 300. *)
Theorem write_overwrites_unread_header :
  (readHead (ring_BC Int32.LittleEndian) = 24
   /\ writeHead (ring_BC Int32.LittleEndian) = 9
   /\ Arena.get_int32 Int32.LittleEndian (buffer (ring_BC Int32.LittleEndian)) 24 = Some 300
   /\ Arena.load_bytes (buffer (ring_BC Int32.LittleEndian)) 28 300 = Some frameB
   /\ tpipe_getWriteBuffer Int32.LittleEndian (ring_BC Int32.LittleEndian) 10
      = Ok (ring_BC Int32.LittleEndian, Some 13)
   /\ tpipe_write Int32.LittleEndian (ring_BC Int32.LittleEndian) frameD 10
      = Ok (ring_BCD Int32.LittleEndian, 1)
   /\ Arena.get_int32 Int32.LittleEndian (buffer (ring_BCD Int32.LittleEndian)) 24 = Some 0)
  /\ (readHead (ring_BC Int32.BigEndian) = 24
      /\ writeHead (ring_BC Int32.BigEndian) = 9
      /\ Arena.get_int32 Int32.BigEndian (buffer (ring_BC Int32.BigEndian)) 24 = Some 300
      /\ Arena.load_bytes (buffer (ring_BC Int32.BigEndian)) 28 300 = Some frameB
      /\ tpipe_getWriteBuffer Int32.BigEndian (ring_BC Int32.BigEndian) 10
         = Ok (ring_BC Int32.BigEndian, Some 13)
      /\ tpipe_write Int32.BigEndian (ring_BC Int32.BigEndian) frameD 10
         = Ok (ring_BCD Int32.BigEndian, 1)
      /\ Arena.get_int32 Int32.BigEndian (buffer (ring_BCD Int32.BigEndian)) 24 = Some 44).
Proof. run. Qed.

(** ** Scenario C on arbitrary contents *)

Section ScenarioC.

Context (bo : Int32.byte_order).

(** [tpipe_init] only sees the block that [malloc] returned. *)
Lemma tpipe_init_malloc (fresh : list byte) (numBytes : Z) :
  tpipe_init bo (Some fresh) numBytes
  = tpipe_init bo (malloc (Some fresh) numBytes) numBytes.
Proof. unfold tpipe_init, malloc. by rewrite resize_idemp. Qed.

(** [memcpy] only sees the first [numBytes] bytes of its source. *)
Lemma load_bytes_take (data : list byte) (numBytes : Z) :
  0 <= numBytes <= Z.of_nat (length data) ->
  Arena.load_bytes data 0 numBytes
  = Arena.load_bytes (take (Z.to_nat numBytes) data) 0 numBytes.
Proof.
  intros H. rewrite !load_bytes_Some by (rewrite ?length_take; lia).
  change (Z.to_nat 0) with 0%nat. by rewrite !drop_0, take_idemp.
Qed.

Lemma tpipe_write_take (q : TinyPipe) (data : list byte) (numBytes : Z) :
  0 <= numBytes <= Z.of_nat (length data) ->
  tpipe_write bo q data numBytes
  = tpipe_write bo q (take (Z.to_nat numBytes) data) numBytes.
Proof.
  intros H. unfold tpipe_write, memcpy. by rewrite load_bytes_take.
Qed.

End ScenarioC.

(** Names the elements of a list whose length is known. *)
Ltac explode l H :=
  repeat (destruct l as [|? l]; simpl in H; try discriminate H; try lia).

Lemma scenario_C_blocks (bo : Int32.byte_order) (blk p1 p2 p3 : list byte) :
  length blk = 32%nat -> length p1 = 20%nat -> length p2 = 20%nat ->
  (1 <= length p3 <= 16)%nat ->
  exists q0 q1 q3 q4,
    tpipe_init bo (Some blk) 32 = Ok (q0, 32)
    /\ tpipe_write bo q0 p1 20 = Ok (q1, 1)
    /\ tpipe_write bo q1 p2 20 = Ok (q1, 0)
    /\ tpipe_consume bo q1 = Ok q3
    /\ tpipe_write bo q3 p2 20 = Ok (q3, 0)
    /\ tpipe_getTotalData bo 1 q3 = Some (Ok 0)
    /\ tpipe_write bo q3 p3 (Z.of_nat (length p3)) = Ok (q4, 1)
    /\ writeHead q3 = 24 /\ readHead q3 = 24
    /\ Arena.get_int32 bo (buffer q4) 24 = Some HLP_LOOP
    /\ writeHead q4 = 4 + Z.of_nat (length p3)
    /\ read_frame bo q4
       = Ok (mkTinyPipe (buffer q4) (writeHead q4) (4 + Z.of_nat (length p3)) 32
                        (remainingBytes q4), Some p3)
    /\ tpipe_getTotalData bo 3 q4 = Some (Ok (Z.of_nat (length p3))).
Proof.
  intros Hb H1 H2 H3.
  exists (pipe_of (tpipe_init bo (Some blk) 32)),
    (pipe_of (tpipe_write bo (pipe_of (tpipe_init bo (Some blk) 32)) p1 20)),
    (pipe_of' (tpipe_consume bo
       (pipe_of (tpipe_write bo (pipe_of (tpipe_init bo (Some blk) 32)) p1 20)))),
    (pipe_of (tpipe_write bo
       (pipe_of' (tpipe_consume bo
          (pipe_of (tpipe_write bo (pipe_of (tpipe_init bo (Some blk) 32)) p1 20))))
       p3 (Z.of_nat (length p3)))).
  explode blk Hb. explode p1 H1. explode p2 H2.
  destruct bo; explode p3 H3;
    (repeat match goal with |- _ /\ _ => split end); vm_compute; reflexivity.
Qed.

(** C3 (amended): from [tpipe_init] with 32 bytes, a [tpipe_write] of 20
    bytes returns 1, a second one returns 0, and after one [tpipe_consume]
    the retried write of 20 bytes returns 0 again, the pipe holding 0 bytes:
    its 28 bytes would reach past the read cursor at offset 24.  A write of
    [n] bytes, [1 <= n <= 16], then returns 1 by the wrap path, with
    [HLP_LOOP] at the old write cursor and the frame at the arena start;
    [tpipe_getTotalData] returns [n] and the next read cycle gives the [n]
    bytes written. *)
Theorem scenario_C_wrap_write (bo : Int32.byte_order) (fresh d1 d2 d3 : list byte) (n : Z) :
  (20 <= length d1)%nat -> (20 <= length d2)%nat ->
  1 <= n <= 16 -> n <= Z.of_nat (length d3) ->
  exists q0 q1 q3 q4,
    tpipe_init bo (Some fresh) 32 = Ok (q0, 32)
    /\ tpipe_write bo q0 d1 20 = Ok (q1, 1)
    /\ tpipe_write bo q1 d2 20 = Ok (q1, 0)
    /\ tpipe_consume bo q1 = Ok q3
    /\ tpipe_write bo q3 d2 20 = Ok (q3, 0)
    /\ (forall fuel, (1 <= fuel)%nat -> tpipe_getTotalData bo fuel q3 = Some (Ok 0))
    /\ tpipe_write bo q3 d3 n = Ok (q4, 1)
    /\ Arena.get_int32 bo (buffer q4) (writeHead q3) = Some HLP_LOOP
    /\ writeHead q4 = 4 + n
    /\ read_frame bo q4
       = Ok (mkTinyPipe (buffer q4) (writeHead q4) (4 + n) 32 (remainingBytes q4),
             Some (take (Z.to_nat n) d3))
    /\ (forall fuel, (3 <= fuel)%nat -> tpipe_getTotalData bo fuel q4 = Some (Ok n)).
Proof.
  intros H1 H2 Hn H3.
  destruct (scenario_C_blocks bo (resize (Z.to_nat 32) x00 fresh) (take 20 d1) (take 20 d2)
              (take (Z.to_nat n) d3))
    as (q0 & q1 & q3 & q4 & E0 & E1 & E2 & E3 & E4 & E5 & E6 & Ew & Er & E7 & E8 & E9 & E10).
  { apply length_resize. }
  { rewrite length_take. lia. }
  { rewrite length_take. lia. }
  { rewrite length_take. lia. }
  assert (Hl : Z.of_nat (length (take (Z.to_nat n) d3)) = n)
    by (rewrite length_take; lia).
  rewrite Hl in *.
  exists q0, q1, q3, q4.
  rewrite tpipe_init_malloc. unfold malloc.
  rewrite (tpipe_write_take bo q0 d1 20) by lia.
  rewrite !(tpipe_write_take bo _ d2 20) by lia.
  rewrite (tpipe_write_take bo q3 d3 n) by lia.
  rewrite Ew.
  repeat match goal with |- _ /\ _ => split end; try assumption.
  - intros fuel Hf. unfold tpipe_getTotalData in *.
    eapply getTotalData_loop_mono; [exact Hf|exact E5].
  - intros fuel Hf. unfold tpipe_getTotalData in *.
    eapply getTotalData_loop_mono; [exact Hf|exact E10].
Qed.

(** ** A negative value from [tpipe_hasData] *)

Lemma reachable_read_frame (bo : Int32.byte_order) (q q' : TinyPipe)
      (f : option (list byte)) :
  reachable bo q -> read_frame bo q = Ok (q', f) -> reachable bo q'.
Proof.
  intros Hr H. unfold read_frame in H. inv_bind H. destruct v as [q1 n].
  assert (Hr1 : reachable bo q1) by (eapply reach_hasData; eauto).
  destruct (0 <? n).
  - inv_bind H. destruct v as [p m]. inv_bind H. inv_bind H.
    injection H as <- _. eapply reach_consume; eauto.
  - injection H as <- _. exact Hr1.
Qed.

Lemma reachable_ring'_BC (bo : Int32.byte_order) : reachable bo (ring'_BC bo).
Proof.
  assert (R0 : reachable bo (ring_init bo)).
  { apply (reach_init bo (Some []) 336 _ 336); [done|]. destruct bo; vm_compute; reflexivity. }
  assert (R1 : reachable bo (ring_A bo)).
  { apply (reach_write bo (ring_init bo) frameA 20 _ 1 R0); [done|].
    destruct bo; vm_compute; reflexivity. }
  assert (R2 : reachable bo (ring'_AB bo)).
  { apply (reach_write bo (ring_A bo) frameB' 300 _ 1 R1); [done|].
    destruct bo; vm_compute; reflexivity. }
  assert (R3 : reachable bo (ring'_B bo)).
  { apply (reachable_read_frame bo (ring'_AB bo) _ (Some frameA) R2).
    destruct bo; vm_compute; reflexivity. }
  apply (reach_write bo (ring'_B bo) frameC 5 _ 1 R3); [done|].
  destruct bo; vm_compute; reflexivity.
Qed.

(** C10 (fails on these runs): the pipe is reachable, every [tpipe_write]
    returned 1 and the consumer followed the read cycle, yet
    [tpipe_hasData] returns -2.  The [HLP_STOP] of the last frame written
    has cut the header of the unread frame B' from 300 to 256 (little
    endian, last frame of 8 bytes) or to 44 (big endian, last frame of 10
    bytes), and the read cursor has come to rest inside the payload of B'. *)
Theorem hasData_returns_negative :
  (reachable Int32.LittleEndian (ring'_cut Int32.LittleEndian 8)
   /\ tpipe_write Int32.LittleEndian (ring_A Int32.LittleEndian) frameB' 300
      = Ok (ring'_AB Int32.LittleEndian, 1)
   /\ read_frame Int32.LittleEndian (ring'_AB Int32.LittleEndian)
      = Ok (ring'_B Int32.LittleEndian, Some frameA)
   /\ tpipe_write Int32.LittleEndian (ring'_B Int32.LittleEndian) frameC 5
      = Ok (ring'_BC Int32.LittleEndian, 1)
   /\ tpipe_write Int32.LittleEndian (ring'_BC Int32.LittleEndian) (payload 8 x0d) 8
      = Ok (ring'_BCD Int32.LittleEndian 8, 1)
   /\ read_frame Int32.LittleEndian (ring'_BCD Int32.LittleEndian 8)
      = Ok (ring'_cut Int32.LittleEndian 8, Some (take 256 frameB'))
   /\ tpipe_hasData Int32.LittleEndian (ring'_cut Int32.LittleEndian 8)
      = Ok (ring'_cut Int32.LittleEndian 8, -2))
  /\ (reachable Int32.BigEndian (ring'_cut Int32.BigEndian 10)
      /\ tpipe_write Int32.BigEndian (ring_A Int32.BigEndian) frameB' 300
         = Ok (ring'_AB Int32.BigEndian, 1)
      /\ read_frame Int32.BigEndian (ring'_AB Int32.BigEndian)
         = Ok (ring'_B Int32.BigEndian, Some frameA)
      /\ tpipe_write Int32.BigEndian (ring'_B Int32.BigEndian) frameC 5
         = Ok (ring'_BC Int32.BigEndian, 1)
      /\ tpipe_write Int32.BigEndian (ring'_BC Int32.BigEndian) (payload 10 x0d) 10
         = Ok (ring'_BCD Int32.BigEndian 10, 1)
      /\ read_frame Int32.BigEndian (ring'_BCD Int32.BigEndian 10)
         = Ok (ring'_cut Int32.BigEndian 10, Some (take 44 frameB'))
      /\ tpipe_hasData Int32.BigEndian (ring'_cut Int32.BigEndian 10)
         = Ok (ring'_cut Int32.BigEndian 10, -2)).
Proof.
  split; (split; [|run]).
  - apply (reachable_read_frame _ (ring'_BCD Int32.LittleEndian 8) _
             (Some (take 256 frameB'))).
    + apply (reach_write _ (ring'_BC Int32.LittleEndian) (payload 8 x0d) 8 _ 1).
      * apply reachable_ring'_BC.
      * done.
      * vm_compute; reflexivity.
    + vm_compute; reflexivity.
  - apply (reachable_read_frame _ (ring'_BCD Int32.BigEndian 10) _
             (Some (take 44 frameB'))).
    + apply (reach_write _ (ring'_BC Int32.BigEndian) (payload 10 x0d) 10 _ 1).
      * apply reachable_ring'_BC.
      * done.
      * vm_compute; reflexivity.
    + vm_compute; reflexivity.
Qed.

(** ** Frames in the arena *)

Section Frames.

Context (bo : Int32.byte_order).

Lemma store_unchanged_outside (a a' bs : list byte) (off : Z) :
  Arena.store_bytes a off bs = Some a' ->
  unchanged_outside a a' off (off + Z.of_nat (length bs)).
Proof.
  intros H. split; [eapply store_bytes_length; eauto|].
  intros off' n Hd. eapply load_store_other; [exact H|lia].
Qed.

Lemma unchanged_outside_refl (a : list byte) (lo hi : Z) : unchanged_outside a a lo hi.
Proof. by split. Qed.

Lemma unchanged_outside_trans (a a' a'' : list byte) (lo hi lo' hi' lo'' hi'' : Z) :
  unchanged_outside a a' lo hi ->
  unchanged_outside a' a'' lo' hi' ->
  lo'' <= lo -> lo'' <= lo' -> hi <= hi'' -> hi' <= hi'' ->
  unchanged_outside a a'' lo'' hi''.
Proof.
  intros [L1 H1] [L2 H2] ? ? ? ?. split; [congruence|].
  intros off n Hd. rewrite H2 by lia. apply H1. lia.
Qed.

Lemma unchanged_get_int32 (a a' : list byte) (lo hi off : Z) :
  unchanged_outside a a' lo hi ->
  off + 4 <= lo \/ hi <= off ->
  Arena.get_int32 bo a' off = Arena.get_int32 bo a off.
Proof.
  intros [_ H] Hd. unfold Arena.get_int32. by rewrite H.
Qed.

Lemma frame_at_bounds (a : list byte) (pos : Z) (f : list byte) :
  frame_at bo a pos f ->
  0 <= pos /\ pos + 4 + Z.of_nat (length f) <= Z.of_nat (length a).
Proof.
  intros (Hpos & Hh & Hp).
  apply get_int32_inv in Hh as (H0 & _). apply load_bytes_inv in Hp as (_ & _ & H2 & _).
  lia.
Qed.

Lemma chain_le (a : list byte) (pos : Z) (fs : list (list byte)) (stop : Z) :
  chain bo a pos fs stop -> pos <= stop.
Proof.
  revert pos. induction fs as [|f fs IH]; simpl; intros pos H.
  - lia.
  - destruct H as [_ H]. apply IH in H. lia.
Qed.

Lemma frame_at_unchanged (a a' : list byte) (lo hi pos : Z) (f : list byte) :
  unchanged_outside a a' lo hi ->
  pos + 4 + Z.of_nat (length f) <= lo \/ hi <= pos ->
  frame_at bo a pos f -> frame_at bo a' pos f.
Proof.
  intros Hu Hd (Hpos & Hh & Hp). split; [done|]. split.
  - erewrite unchanged_get_int32; [exact Hh|exact Hu|lia].
  - destruct Hu as [_ Hu]. rewrite Hu by lia. exact Hp.
Qed.

(** A chain of frames is not touched by stores outside its bytes. *)
Lemma chain_unchanged (a a' : list byte) (lo hi pos : Z) (fs : list (list byte)) (stop : Z) :
  unchanged_outside a a' lo hi ->
  stop <= lo \/ hi <= pos ->
  chain bo a pos fs stop -> chain bo a' pos fs stop.
Proof.
  intros Hu. revert pos. induction fs as [|f fs IH]; simpl; intros pos Hd H.
  - done.
  - destruct H as [Hf H]. pose proof (chain_le _ _ _ _ H) as Hle. split.
    + eapply frame_at_unchanged; [exact Hu| |exact Hf]. lia.
    + apply IH; [lia|exact H].
Qed.

Lemma chain_snoc (a : list byte) (pos : Z) (fs : list (list byte)) (stop : Z) (f : list byte) :
  chain bo a pos fs stop ->
  frame_at bo a stop f ->
  chain bo a pos (fs ++ [f]) (stop + 4 + Z.of_nat (length f)).
Proof.
  revert pos. induction fs as [|g fs IH]; simpl; intros pos H Hf.
  - subst pos. done.
  - destruct H as [Hg H]. split; [done|]. by apply IH.
Qed.

Lemma chain_aligned (a : list byte) (pos : Z) (fs : list (list byte)) (stop : Z) :
  chain bo a pos fs stop ->
  Forall (fun f => aligned (Z.of_nat (length f))) fs ->
  aligned pos -> aligned stop.
Proof.
  revert pos. induction fs as [|f fs IH]; simpl; intros pos H Hfs Hp.
  - by subst.
  - destruct H as [_ H]. inversion Hfs as [|? ? Hf Hfs']; subst.
    apply (IH _ H Hfs'). unfold aligned in *.
    rewrite <- Z.add_assoc, Zplus_mod, Hp.
    rewrite (Zplus_mod 4), Hf. reflexivity.
Qed.

End Frames.

(** ** The producer keeps the frames *)

Section AlignedWrites.

Context (bo : Int32.byte_order).

Lemma aligned_next (x y : Z) : aligned x -> aligned y -> aligned (x + 4 + y).
Proof.
  unfold aligned. intros Hx Hy.
  rewrite <- Z.add_assoc, Zplus_mod, Hx, (Zplus_mod 4), Hy. reflexivity.
Qed.

(** Between two multiples of 4 that differ there are at least 4. *)
Lemma aligned_gap (x y : Z) : aligned x -> aligned y -> x < y -> x + 4 <= y.
Proof.
  unfold aligned. intros Hx Hy Hlt.
  apply Z.mod_divide in Hx as [k ->]; [|lia].
  apply Z.mod_divide in Hy as [m ->]; [|lia]. lia.
Qed.

Lemma repr_init (heap : option (list byte)) (numBytes : Z) (q : TinyPipe) (r : Z) :
  numBytes <= Int32.max_signed ->
  tpipe_init bo heap numBytes = Ok (q, r) ->
  repr bo q [].
Proof.
  intros Hmax H. pose proof (wf_init bo _ _ _ _ Hmax H) as (Hwf & _ & _).
  unfold tpipe_init in H. destruct (0 <? numBytes); [|discriminate].
  destruct heap as [fresh|]; simpl in H; [|discriminate].
  inv_bind H. injection H as <- _.
  split; simpl; try done.
  - erewrite get_set_same by exact Ha. reflexivity.
  - apply layout_linear; simpl; done.
Qed.

Lemma produce_unchanged (q q2 : TinyPipe) (numBytes : Z) :
  tpipe_produce bo q numBytes = Ok q2 -> 0 <= numBytes ->
  unchanged_outside (buffer q) (buffer q2) (writeHead q) (writeHead q + numBytes + 8).
Proof.
  intros H Hn. unfold tpipe_produce in H. inv_bind H.
  destruct (remainingBytes q >=? v); [|discriminate].
  inv_bind H. inv_bind H. injection H as <-. simpl.
  unfold Arena.set_int32 in Ha0, Ha1.
  apply store_unchanged_outside in Ha0, Ha1. rewrite length_encode in Ha0, Ha1.
  eapply unchanged_outside_trans; [exact Ha0|exact Ha1|ilia..].
Qed.

(** [tpipe_getWriteBuffer] for a frame of [n] bytes, [n] a positive multiple
    of 4: it returns [NULL] and leaves the pipe, or it returns the slot after
    the write cursor and has reserved [n + 8] bytes there. *)
Lemma getWriteBuffer_reserved (q : TinyPipe) (fs : list (list byte)) (n : Z) :
  repr bo q fs -> 0 < n -> aligned n -> n <= Int32.max_signed - 8 ->
  tpipe_getWriteBuffer bo q n = Ok (q, None)
  \/ exists q1, tpipe_getWriteBuffer bo q n = Ok (q1, Some (writeHead q1 + 4))
                /\ reserved bo q1 fs n.
Proof.
  intros [Hwf Hr0 [Haw Har] Hfs Hstop Hlay] Hn Han Hmax.
  pose proof Hwf as [].
  unfold tpipe_getWriteBuffer. rewrite wrap_id by ilia.
  destruct (_ <=? remainingBytes q) eqn:Htail.
  - apply Z.leb_le in Htail.
    destruct (_ && _) eqn:Hov; [by left|]. right. exists q. split; [done|].
    repeat (split; [first [done|ilia]|]).
    destruct Hlay as [Hle Hc|fs1 fs2 e -> Hlt H1 He H2]; [by left|].
    right. exists fs1, fs2, e. repeat (split; [done|]). split; [|done].
    apply andb_false_iff in Hov as [Hov|Hov].
    + apply Z.ltb_ge in Hov. lia.
    + rewrite Z.geb_leb in Hov. apply Z.leb_gt in Hov.
      pose proof (aligned_gap (writeHead q + 4 + n) (readHead q)
                    (aligned_next _ _ Haw Han) Har) as Hg.
      ilia.
  - apply Z.leb_gt in Htail.
    destruct (_ <=? len q) eqn:Hfit; [|by left].
    apply Z.leb_le in Hfit.
    destruct (_ || _) eqn:Hov; [by left|]. right.
    apply orb_false_iff in Hov as [Hov1 Hov2].
    apply Z.ltb_ge in Hov1. rewrite Z.gtb_ltb in Hov2. apply Z.ltb_ge in Hov2.
    destruct (set_int32_Some bo (buffer q) 0 HLP_STOP) as (b1 & E1 & L1); [lia..|].
    destruct (set_int32_Some bo b1 (writeHead q) HLP_LOOP) as (b2 & E2 & L2); [lia..|].
    rewrite E1. simpl. rewrite E2. simpl.
    exists (mkTinyPipe b2 0 (readHead q) (len q) (len q)). split; [reflexivity|].
    assert (Hwf1 : wf bo (mkTinyPipe b2 0 (readHead q) (len q) (len q))).
    { apply (wf_getWriteBuffer bo q _ n (Some 4) Hwf).
      unfold tpipe_getWriteBuffer. rewrite wrap_id by ilia.
      apply Z.leb_gt in Htail. rewrite Htail.
      apply Z.leb_le in Hfit. rewrite Hfit.
      apply Z.ltb_ge in Hov1. rewrite Hov1.
      apply Z.ltb_ge in Hov2. rewrite Z.gtb_ltb, Hov2. simpl.
      rewrite E1. simpl. rewrite E2. reflexivity. }
    split; [exact Hwf1|]. simpl.
    repeat (split; [first [done|ilia]|]).
    destruct Hlay as [Hle Hc|fs1 fs2 e -> Hlt H1 He H2]; [|lia].
    right. exists fs, [], (writeHead q). rewrite app_nil_r.
    unfold Arena.set_int32 in E1, E2.
    pose proof (store_unchanged_outside _ _ _ _ E1) as U1.
    pose proof (store_unchanged_outside _ _ _ _ E2) as U2.
    rewrite length_encode in U1, U2.
    repeat split; simpl; try ilia.
    + eapply chain_unchanged; [exact U2|left; lia|].
      eapply chain_unchanged; [exact U1|right; ilia|exact Hc].
    + fold (Arena.set_int32 bo b1 (writeHead q) HLP_LOOP) in E2.
      erewrite get_set_same by exact E2. reflexivity.
Qed.

(** Filling the reserved region and [tpipe_produce] add the frame behind
    the frames the pipe held. *)
Lemma publish_reserved (q1 : TinyPipe) (fs : list (list byte)) (data : list byte) (n : Z) :
  reserved bo q1 fs n -> 0 < n -> aligned n -> n <= Z.of_nat (length data) ->
  exists a q2,
    memcpy (buffer q1) (writeHead q1 + 4) data n = Ok a
    /\ tpipe_produce bo (with_buffer q1 a) n = Ok q2
    /\ repr bo q2 (fs ++ [take (Z.to_nat n) data]).
Proof.
  intros (Hwf & Hr0 & Haw & Har & Hfs & Hroom & Hlay) Hn Han Hdata.
  pose proof Hwf as [].
  set (src := take (Z.to_nat n) data).
  assert (Hsrc : Z.of_nat (length src) = n) by (unfold src; rewrite length_take; lia).
  assert (Hload : Arena.load_bytes data 0 n = Some src).
  { rewrite load_bytes_Some by lia. change (Z.to_nat 0) with 0%nat. by rewrite drop_0. }
  assert (Hstore : Arena.store_bytes (buffer q1) (writeHead q1 + 4) src
                   = Some (list_inserts (Z.to_nat (writeHead q1 + 4)) src (buffer q1))).
  { apply store_bytes_Some; lia. }
  set (a := list_inserts (Z.to_nat (writeHead q1 + 4)) src (buffer q1)) in *.
  assert (Hcpy : memcpy (buffer q1) (writeHead q1 + 4) data n = Ok a).
  { unfold memcpy. destruct (n <? 0) eqn:E; [apply Z.ltb_lt in E; lia|].
    rewrite Hload. simpl. rewrite Hstore. reflexivity. }
  assert (Hwfa : wf bo (with_buffer q1 a)).
  { eapply wf_with_buffer; [exact Hwf| |exact Hcpy]. lia. }
  destruct (produce_ok bo (with_buffer q1 a) n Hwfa) as
    (q2 & Hp & Hs & Hh & Hw2 & Hrem2 & Hr2 & Hl2 & Hpay); [simpl; lia..|].
  simpl in *.
  exists a, q2. split; [exact Hcpy|]. split; [exact Hp|].
  pose proof (store_unchanged_outside _ _ _ _ Hstore) as U1.
  pose proof (produce_unchanged _ _ _ Hp ltac:(lia)) as U2. simpl in U2.
  assert (U : unchanged_outside (buffer q1) (buffer q2)
                (writeHead q1) (writeHead q1 + n + 8)).
  { eapply unchanged_outside_trans; [exact U1|exact U2|lia..]. }
  assert (Hframe : frame_at bo (buffer q2) (writeHead q1) src).
  { split; [lia|]. rewrite Hsrc. split; [exact Hh|].
    rewrite Hpay. rewrite <- Hsrc. eapply load_store_same. exact Hstore. }
  assert (Hw2' : writeHead q2 = writeHead q1 + 4 + Z.of_nat (length src)) by lia.
  split.
  - eapply wf_produce; [exact Hwfa| |exact Hp]. lia.
  - lia.
  - split; [|congruence]. rewrite Hw2'. apply aligned_next; [done|by rewrite Hsrc].
  - apply Forall_app. split; [done|]. constructor; [by rewrite Hsrc|constructor].
  - rewrite Hw2, <- Hs. f_equal. lia.
  - destruct Hlay as [[Hle Hc]|(fs1 & fs2 & e & -> & Hlt & H1 & He & H2)].
    + apply layout_linear; [lia|]. rewrite Hr2, Hw2'.
      apply chain_snoc; [|exact Hframe].
      eapply chain_unchanged; [exact U|left; lia|exact Hc].
    + rewrite <- app_assoc.
      apply (layout_wrapped bo q2 _ fs1 (fs2 ++ [src]) e); [done|lia|..].
      * rewrite Hr2. eapply chain_unchanged; [exact U|right; lia|exact H1].
      * pose proof (chain_le _ _ _ _ _ H1) as Hre.
        erewrite unchanged_get_int32; [exact He|exact U|right; lia].
      * rewrite Hw2'. apply chain_snoc; [|exact Hframe].
        eapply chain_unchanged; [exact U|left; lia|exact H2].
Qed.

(** A [tpipe_write] of a frame whose length is a positive multiple of 4
    either returns 0 and leaves the pipe as it was, or returns 1 and has
    added the frame behind the unread ones, none of which has changed. *)
Lemma write_repr (q : TinyPipe) (fs : list (list byte)) (data : list byte) :
  repr bo q fs -> aligned_op (Write data) ->
  tpipe_write bo q data (Z.of_nat (length data)) = Ok (q, 0)
  \/ exists q2, tpipe_write bo q data (Z.of_nat (length data)) = Ok (q2, 1)
                /\ repr bo q2 (fs ++ [data]).
Proof.
  intros Hrep (Hpos & Hal & Hmax).
  destruct (getWriteBuffer_reserved q fs (Z.of_nat (length data)) Hrep)
    as [E|(q1 & E & Hres)]; [lia|done|done| |].
  - left. unfold tpipe_write. rewrite E. reflexivity.
  - right.
    destruct (publish_reserved q1 fs data (Z.of_nat (length data)) Hres)
      as (a & q2 & Hc & Hp & Hrep2); [lia|done|lia|].
    exists q2. split.
    + unfold tpipe_write. rewrite E. simpl. rewrite Hc. simpl.
      unfold with_buffer in Hp. rewrite Hp. reflexivity.
    + rewrite Nat2Z.id, take_ge in Hrep2 by lia. exact Hrep2.
Qed.

End AlignedWrites.

(** ** The consumer reads the frames in order *)

Section AlignedReads.

Context (bo : Int32.byte_order).

Lemma read_frame_at (q : TinyPipe) (f : list byte) :
  frame_at bo (buffer q) (readHead q) f ->
  read_frame bo q
  = Ok (mkTinyPipe (buffer q) (writeHead q) (readHead q + (4 + Z.of_nat (length f)))
                   (len q) (remainingBytes q), Some f).
Proof.
  intros (Hpos & Hh & Hp).
  assert (E1 : (Z.of_nat (length f) =? HLP_LOOP) = false) by (apply Z.eqb_neq; ilia).
  assert (E2 : (Z.of_nat (length f) =? HLP_STOP) = false) by (apply Z.eqb_neq; ilia).
  assert (E3 : (0 <? Z.of_nat (length f)) = true) by (apply Z.ltb_lt; lia).
  unfold read_frame, tpipe_hasData. rewrite Hh. simpl. rewrite E1. simpl. rewrite E3.
  unfold tpipe_getReadBuffer. rewrite Hh. simpl.
  unfold sizeof_int32. rewrite Hp. simpl.
  unfold tpipe_consume. rewrite Hh. simpl. rewrite E2. reflexivity.
Qed.

Lemma read_frame_stop (q : TinyPipe) :
  Arena.get_int32 bo (buffer q) (readHead q) = Some HLP_STOP ->
  read_frame bo q = Ok (q, None).
Proof.
  intros H. unfold read_frame, tpipe_hasData. rewrite H. reflexivity.
Qed.

(** At a [HLP_LOOP] the read cycle is the one from the arena start. *)
Lemma read_frame_loop (q : TinyPipe) (y : Z) :
  Arena.get_int32 bo (buffer q) (readHead q) = Some HLP_LOOP ->
  Arena.get_int32 bo (buffer q) 0 = Some y -> y <> HLP_LOOP ->
  read_frame bo q
  = read_frame bo (mkTinyPipe (buffer q) (writeHead q) 0 (len q) (remainingBytes q)).
Proof.
  intros H Hy Hne. apply Z.eqb_neq in Hne.
  unfold read_frame, tpipe_hasData. simpl. rewrite H, Hy. simpl. rewrite Hne.
  reflexivity.
Qed.

Lemma read_repr_linear (q : TinyPipe) (fs : list (list byte)) :
  wf bo q -> 0 <= readHead q ->
  aligned (writeHead q) -> aligned (readHead q) ->
  Forall (fun f => aligned (Z.of_nat (length f))) fs ->
  Arena.get_int32 bo (buffer q) (writeHead q) = Some HLP_STOP ->
  chain bo (buffer q) (readHead q) fs (writeHead q) ->
  exists q', read_frame bo q = Ok (q', head fs) /\ repr bo q' (tail fs).
Proof.
  intros Hwf Hr0 Haw Har Hfs Hstop Hc. destruct fs as [|f fs]; simpl in *.
  - exists q. split; [apply read_frame_stop; by rewrite Hc|].
    split; try done. apply layout_linear; [lia|done].
  - destruct Hc as [Hf Hc]. eexists. split; [apply read_frame_at; exact Hf|].
    inversion Hfs as [|? ? Hfa Hfs']; subst.
    pose proof (chain_le _ _ _ _ _ Hc) as Hle.
    replace (readHead q + (4 + Z.of_nat (length f)))
      with (readHead q + 4 + Z.of_nat (length f)) by lia.
    split; simpl; try done.
    + destruct Hwf. by split.
    + lia.
    + split; [done|]. by apply aligned_next.
    + apply layout_linear; simpl; [lia|done].
Qed.

(** One read cycle on a pipe that holds the frames [fs] gives the oldest of
    them and leaves the others. *)
Lemma read_repr (q : TinyPipe) (fs : list (list byte)) :
  repr bo q fs ->
  exists q', read_frame bo q = Ok (q', head fs) /\ repr bo q' (tail fs).
Proof.
  intros [Hwf Hr0 [Haw Har] Hfs Hstop Hlay].
  destruct Hlay as [Hle Hc|fs1 fs2 e -> Hlt H1 He H2].
  { by apply read_repr_linear. }
  destruct fs1 as [|f fs1]; simpl in *.
  - subst e.
    destruct Hwf as [? ? ? ? ? (y & Hy & Hy0)].
    rewrite (read_frame_loop q y He Hy) by ilia.
    apply read_repr_linear; simpl; try done.
    split; simpl; eauto.
  - destruct H1 as [Hf H1]. eexists. split; [apply read_frame_at; exact Hf|].
    inversion Hfs as [|? ? Hfa Hfs']; subst.
    replace (readHead q + (4 + Z.of_nat (length f)))
      with (readHead q + 4 + Z.of_nat (length f)) by lia.
    split; simpl; try done.
    + destruct Hwf. by split.
    + lia.
    + split; [done|]. by apply aligned_next.
    + apply (layout_wrapped bo _ _ fs1 fs2 e); simpl; try done. lia.
Qed.

(** On a pipe that holds the frames [fs], [tpipe_hasData] returns the
    length of the oldest, 0 when there is none: never a negative value. *)
Lemma hasData_repr (q : TinyPipe) (fs : list (list byte)) :
  repr bo q fs ->
  exists q', tpipe_hasData bo q
             = Ok (q', match fs with [] => 0 | f :: _ => Z.of_nat (length f) end)
             /\ repr bo q' fs.
Proof.
  assert (Hlin : forall q fs,
             Arena.get_int32 bo (buffer q) (writeHead q) = Some HLP_STOP ->
             chain bo (buffer q) (readHead q) fs (writeHead q) ->
             tpipe_hasData bo q
             = Ok (q, match fs with [] => 0 | f :: _ => Z.of_nat (length f) end)).
  { clear. intros q fs Hstop Hc. unfold tpipe_hasData. destruct fs as [|f fs]; simpl in Hc.
    - rewrite Hc, Hstop. reflexivity.
    - destruct Hc as [(Hpos & Hh & _) _]. rewrite Hh. simpl.
      replace (Z.of_nat (length f) =? HLP_LOOP) with false; [done|].
      symmetry. apply Z.eqb_neq. ilia. }
  intros Hrep. pose proof Hrep as [Hwf Hr0 [Haw Har] Hfs Hstop Hlay].
  destruct Hlay as [Hle Hc|fs1 fs2 e -> Hlt H1 He H2].
  { exists q. split; [by apply Hlin|done]. }
  destruct fs1 as [|f fs1]; simpl in *.
  - subst e.
    exists (mkTinyPipe (buffer q) (writeHead q) 0 (len q) (remainingBytes q)).
    split.
    + specialize (Hlin (mkTinyPipe (buffer q) (writeHead q) 0 (len q) (remainingBytes q))
                       fs2 Hstop H2).
      destruct Hwf as [? ? ? ? ? (y & Hy & Hy0)].
      assert (Ey : (y =? HLP_LOOP) = false) by (apply Z.eqb_neq; ilia).
      unfold tpipe_hasData in *. simpl in *. rewrite He. simpl.
      rewrite Hy in *. simpl in *. rewrite Ey in Hlin. exact Hlin.
    + split; simpl; try done.
      * destruct Hwf. by split.
      * apply layout_linear; simpl; [destruct Hwf; lia|done].
  - exists q. split; [|done].
    destruct H1 as [(Hpos & Hh & _) _]. unfold tpipe_hasData. rewrite Hh. simpl.
    replace (Z.of_nat (length f) =? HLP_LOOP) with false; [done|].
    symmetry. apply Z.eqb_neq. ilia.
Qed.

(** Read cycles until [tpipe_hasData] reports no data give all the frames
    the pipe holds, oldest first. *)
Lemma drain_repr (fs : list (list byte)) (q : TinyPipe) (fuel : nat) :
  repr bo q fs -> (length fs < fuel)%nat ->
  exists q', drain bo fuel q = Ok (q', fs) /\ repr bo q' [].
Proof.
  revert q fuel. induction fs as [|f fs IH]; intros q fuel Hrep Hfuel;
    (destruct fuel as [|fuel]; [simpl in Hfuel; lia|]);
    destruct (read_repr q _ Hrep) as (q1 & E & Hrep1); simpl in *; rewrite E; simpl.
  - eauto.
  - destruct (IH q1 fuel Hrep1) as (q2 & E2 & Hrep2); [lia|].
    rewrite E2. simpl. eauto.
Qed.

Lemma run_repr (ops : list op) (q : TinyPipe) (fs written got : list (list byte)) :
  repr bo q fs -> Forall aligned_op ops -> written = got ++ fs ->
  exists q' written' got' fs',
    run bo ops q written got = Ok (q', written', got')
    /\ repr bo q' fs' /\ written' = got' ++ fs'.
Proof.
  revert q fs written got.
  induction ops as [|o ops IH]; intros q fs written got Hrep Hops Hinv; simpl.
  { exists q, written, got, fs. done. }
  inversion Hops as [|? ? Ho Hops']; subst.
  destruct o as [data|].
  - destruct (write_repr bo q fs data Hrep Ho) as [E|(q2 & E & Hrep2)];
      rewrite E; simpl.
    + by apply (IH q fs).
    + apply (IH q2 (fs ++ [data])); [done|done|]. by rewrite app_assoc.
  - destruct (read_repr q fs Hrep) as (q1 & E & Hrep1). rewrite E. simpl.
    destruct fs as [|f fs]; simpl in *.
    + by apply (IH q1 []).
    + apply (IH q1 fs); [done|done|]. by rewrite <- app_assoc.
Qed.

(** X16: FIFO for frames of aligned length: after a [tpipe_init] that has
    returned and any sequence of [tpipe_write]s of frames whose lengths are
    positive multiples of 4, at most [INT_MAX - 8], and of read cycles, every
    call has returned, and the frames the read cycles gave, followed by the
    frames that reading on gives, are exactly the frames of the writes that
    returned 1, in the order written. *)
Theorem fifo_aligned (heap : option (list byte)) (numBytes : Z) (q0 : TinyPipe) (r : Z)
        (ops : list op) :
  numBytes <= Int32.max_signed ->
  tpipe_init bo heap numBytes = Ok (q0, r) ->
  Forall aligned_op ops ->
  exists q written got q' rest,
    run bo ops q0 [] [] = Ok (q, written, got)
    /\ drain bo (S (length written)) q = Ok (q', rest)
    /\ got ++ rest = written.
Proof.
  intros Hmax Hinit Hops.
  pose proof (repr_init bo _ _ _ _ Hmax Hinit) as Hrep0.
  destruct (run_repr ops q0 [] [] [] Hrep0 Hops eq_refl)
    as (q & written & got & fs & Hrun & Hrep & Hw).
  destruct (drain_repr fs q (S (length written)) Hrep) as (q' & Hd & _).
  { subst written. rewrite length_app. lia. }
  exists q, written, got, q', fs. done.
Qed.

End AlignedReads.

(** [fifo_aligned] on the pipe of Scenario C: the second write returns 0,
    the two others are read back in order. *)
Lemma fifo_aligned_witness :
  32 <= Int32.max_signed
  /\ tpipe_init Int32.LittleEndian (Some []) 32 = Ok (small_init Int32.LittleEndian, 32)
  /\ Forall aligned_op
    [Write (payload 20 x01); Write (payload 20 x02); Read;
     Write (payload 16 x03); Read; Read]
  /\ exists q written got q' rest,
      run Int32.LittleEndian
        [Write (payload 20 x01); Write (payload 20 x02); Read;
         Write (payload 16 x03); Read; Read]
        (small_init Int32.LittleEndian) [] [] = Ok (q, written, got)
      /\ drain Int32.LittleEndian (S (length written)) q = Ok (q', rest)
      /\ got ++ rest = written
      /\ written = [payload 20 x01; payload 16 x03].
Proof.
  assert (Hops : Forall aligned_op
            [Write (payload 20 x01); Write (payload 20 x02); Read;
             Write (payload 16 x03); Read; Read]).
  { repeat constructor; vm_compute; congruence. }
  assert (Hmax : 32 <= Int32.max_signed) by (vm_compute; discriminate).
  assert (Hinit : tpipe_init Int32.LittleEndian (Some []) 32
                  = Ok (small_init Int32.LittleEndian, 32)) by (vm_compute; reflexivity).
  split; [exact Hmax|]. split; [exact Hinit|]. split; [exact Hops|].
  destruct (fifo_aligned Int32.LittleEndian (Some []) 32 (small_init Int32.LittleEndian) 32
              _ Hmax Hinit Hops)
    as (q & written & got & q' & rest & Hrun & Hdrain & Heq).
  exists q, written, got, q', rest. repeat split; try assumption.
  vm_compute in Hrun. by injection Hrun as _ <- _.
Defined.

(** ** The theorems at concrete pipes *)

Local Abbreviation LE := Int32.LittleEndian.

Lemma wf_fresh64 : wf LE (fresh64 LE).
Proof.
  split; try (vm_compute; intuition congruence).
  exists 0. split; [vm_compute; reflexivity|lia].
Defined.

Lemma hasData_spec_witness :
  Arena.get_int32 LE (buffer (small_wrapped LE)) (readHead (small_wrapped LE))
  = Some HLP_LOOP
  /\ exists q' y,
      tpipe_hasData LE (small_wrapped LE) = Ok (q', y)
      /\ readHead q' = 0 /\ Arena.get_int32 LE (buffer q') (readHead q') = Some y.
Proof.
  assert (H : Arena.get_int32 LE (buffer (small_wrapped LE)) (readHead (small_wrapped LE))
              = Some HLP_LOOP) by (vm_compute; reflexivity).
  split; [exact H|].
  destruct (hasData_spec LE (small_wrapped LE) HLP_LOOP H)
    as (q' & y & E & _ & Ey & _ & Hl).
  exists q', y. split; [exact E|]. split; [exact (proj1 (Hl eq_refl))|exact Ey].
Defined.

Lemma consume_spec_witness :
  Arena.get_int32 LE (buffer (small_first LE)) (readHead (small_first LE)) = Some 20
  /\ tpipe_consume LE (small_first LE)
     = Ok (mkTinyPipe (buffer (small_first LE)) (writeHead (small_first LE))
                      (readHead (small_first LE) + (4 + 20))
                      (len (small_first LE)) (remainingBytes (small_first LE))).
Proof.
  assert (H : Arena.get_int32 LE (buffer (small_first LE)) (readHead (small_first LE))
              = Some 20) by (vm_compute; reflexivity).
  split; [exact H|].
  apply (proj2 (consume_spec LE (small_first LE) 20 H)). discriminate.
Defined.

Lemma clear_spec_witness :
  Z.of_nat (length (buffer (ring_BCD LE))) = len (ring_BCD LE)
  /\ 4 <= len (ring_BCD LE)
  /\ exists q',
      tpipe_clear (ring_BCD LE) = Ok q'
      /\ writeHead q' = 0 /\ readHead q' = 0 /\ remainingBytes q' = 336
      /\ buffer q' = replicate 336 x00
      /\ tpipe_hasData LE q' = Ok (q', 0)
      /\ tpipe_getTotalData LE 1 q' = Some (Ok 0).
Proof.
  assert (H1 : Z.of_nat (length (buffer (ring_BCD LE))) = len (ring_BCD LE))
    by (vm_compute; reflexivity).
  assert (H2 : 4 <= len (ring_BCD LE)) by (vm_compute; discriminate).
  split; [exact H1|]. split; [exact H2|].
  destruct (clear_spec LE (ring_BCD LE) H1 H2)
    as (q' & E & Hw & Hr & Hrem & _ & Hb & Hd & Ht).
  exists q'. repeat match goal with |- _ /\ _ => split end; try assumption.
  apply Ht. lia.
Defined.

Lemma getWriteBuffer_null_unchanged_witness :
  tpipe_getWriteBuffer LE (small_first LE) 20 = Ok (small_first LE, None)
  /\ small_first LE = small_first LE.
Proof.
  split; [vm_compute; reflexivity|].
  apply (getWriteBuffer_null_unchanged LE (small_first LE) (small_first LE) 20).
  vm_compute; reflexivity.
Defined.

Lemma produce_postcondition_witness :
  wf LE (fresh64 LE)
  /\ 0 <= 20 <= Int32.max_signed - 8
  /\ tpipe_getWriteBuffer LE (fresh64 LE) 20 = Ok (fresh64 LE, Some 4)
  /\ exists q2,
      tpipe_produce LE (fresh64 LE) 20 = Ok q2
      /\ Arena.get_int32 LE (buffer q2) (writeHead (fresh64 LE) + 4 + 20) = Some HLP_STOP
      /\ Arena.get_int32 LE (buffer q2) (writeHead (fresh64 LE)) = Some 20
      /\ writeHead q2 = writeHead (fresh64 LE) + (4 + 20)
      /\ remainingBytes q2 = remainingBytes (fresh64 LE) - (4 + 20).
Proof.
  assert (Hn : 0 <= 20 <= Int32.max_signed - 8) by (vm_compute; intuition congruence).
  assert (H : tpipe_getWriteBuffer LE (fresh64 LE) 20 = Ok (fresh64 LE, Some 4))
    by (vm_compute; reflexivity).
  split; [exact wf_fresh64|]. split; [exact Hn|]. split; [exact H|].
  exact (produce_postcondition LE (fresh64 LE) (fresh64 LE) 20 4 wf_fresh64 Hn H).
Defined.

Lemma produce_assertion_after_acquire_witness :
  Int32.in_range 10 /\ 10 <= Int32.max_signed - 8
  /\ tpipe_getWriteBuffer LE (fresh64 LE) 10 = Ok (fresh64 LE, Some 4)
  /\ Int32.in_range 20 /\ 20 <= Int32.max_signed - 8
  /\ 10 + 8 <= remainingBytes (fresh64 LE)
  /\ (tpipe_produce LE (fresh64 LE) 20 = AssertionFailure
      <-> remainingBytes (fresh64 LE) < 20 + 8)
  /\ (20 <= 10 -> tpipe_produce LE (fresh64 LE) 20 <> AssertionFailure).
Proof.
  assert (Hrb : Int32.in_range 10) by (vm_compute; intuition congruence).
  assert (Hb : 10 <= Int32.max_signed - 8) by (vm_compute; discriminate).
  assert (H : tpipe_getWriteBuffer LE (fresh64 LE) 10 = Ok (fresh64 LE, Some 4))
    by (vm_compute; reflexivity).
  assert (Hrn : Int32.in_range 20) by (vm_compute; intuition congruence).
  assert (Hn : 20 <= Int32.max_signed - 8) by (vm_compute; discriminate).
  split; [exact Hrb|]. split; [exact Hb|]. split; [exact H|].
  split; [exact Hrn|]. split; [exact Hn|].
  exact (produce_assertion_after_acquire LE (fresh64 LE) (fresh64 LE) 10 4 20
           Hrb Hb H Hrn Hn).
Defined.

Lemma scenario_C_wrap_write_witness :
  (20 <= length (payload 20 x01))%nat
  /\ (20 <= length (payload 20 x02))%nat
  /\ 1 <= 16 <= 16
  /\ 16 <= Z.of_nat (length (payload 16 x03))
  /\ exists q3 q4,
      tpipe_write LE q3 (payload 20 x02) 20 = Ok (q3, 0)
      /\ tpipe_write LE q3 (payload 16 x03) 16 = Ok (q4, 1)
      /\ tpipe_getTotalData LE 3 q4 = Some (Ok 16).
Proof.
  assert (H1 : (20 <= length (payload 20 x01))%nat) by (vm_compute; lia).
  assert (H2 : (20 <= length (payload 20 x02))%nat) by (vm_compute; lia).
  assert (Hn : 1 <= 16 <= 16) by lia.
  assert (H3 : 16 <= Z.of_nat (length (payload 16 x03))) by (vm_compute; discriminate).
  split; [exact H1|]. split; [exact H2|]. split; [exact Hn|]. split; [exact H3|].
  destruct (scenario_C_wrap_write LE [] (payload 20 x01) (payload 20 x02)
              (payload 16 x03) 16 H1 H2 Hn H3)
    as (q0 & q1 & q3 & q4 & _ & _ & _ & _ & E4 & _ & E6 & _ & _ & _ & E10).
  exists q3, q4. split; [exact E4|]. split; [exact E6|]. apply E10. lia.
Defined.

(* ===================================================================== *)
(** * Further properties of the calls *)
(* ===================================================================== *)

(** ** [tpipe_init] *)

(** X1: when [malloc] returns a block, [tpipe_init] with at least the 4
    bytes of one marker returns the capacity and an empty pipe: both cursors at
    the arena start, [len] and the remaining-bytes counter at the capacity,
    [HLP_STOP] in the first slot and the bytes after it as [malloc] left them;
    [tpipe_hasData] returns 0 and [tpipe_getTotalData] returns 0. *)
Theorem init_returns_empty_pipe (bo : Int32.byte_order) (fresh : list byte) (numBytes : Z) :
  4 <= numBytes ->
  exists q block,
    malloc (Some fresh) numBytes = Some block
    /\ tpipe_init bo (Some fresh) numBytes = Ok (q, numBytes)
    /\ writeHead q = 0 /\ readHead q = 0
    /\ len q = numBytes /\ remainingBytes q = numBytes
    /\ Z.of_nat (length (buffer q)) = numBytes
    /\ Arena.get_int32 bo (buffer q) 0 = Some HLP_STOP
    /\ (forall off n, 4 <= off ->
          Arena.load_bytes (buffer q) off n = Arena.load_bytes block off n)
    /\ tpipe_hasData bo q = Ok (q, 0)
    /\ (forall fuel, (1 <= fuel)%nat -> tpipe_getTotalData bo fuel q = Some (Ok 0)).
Proof.
  intros Hn. unfold tpipe_init, malloc.
  destruct (0 <? numBytes) eqn:E; [|apply Z.ltb_ge in E; lia].
  set (block := resize (Z.to_nat numBytes) x00 fresh).
  assert (Lblock : Z.of_nat (length block) = numBytes).
  { unfold block. rewrite length_resize. lia. }
  destruct (set_int32_Some bo block 0 HLP_STOP) as (b & Eb & Lb); [lia..|].
  rewrite Eb. simpl. eexists _, block. split; [reflexivity|].
  split; [reflexivity|]. simpl.
  assert (Hs : Arena.get_int32 bo b 0 = Some HLP_STOP).
  { erewrite get_set_same by exact Eb. reflexivity. }
  repeat match goal with |- _ /\ _ => split end; try reflexivity.
  - rewrite Lb. exact Lblock.
  - exact Hs.
  - intros off n Hoff. unfold Arena.set_int32 in Eb.
    eapply load_store_other; [exact Eb|]. rewrite length_encode. lia.
  - unfold tpipe_hasData. simpl. rewrite Hs. reflexivity.
  - intros fuel Hf. apply (getTotalData_loop_mono bo 1); [done|].
    unfold tpipe_getTotalData. simpl. rewrite Hs. reflexivity.
Qed.

Lemma init_returns_empty_pipe_witness :
  4 <= 32
  /\ exists q,
      tpipe_init LE (Some []) 32 = Ok (q, 32)
      /\ writeHead q = 0 /\ readHead q = 0 /\ remainingBytes q = 32
      /\ tpipe_hasData LE q = Ok (q, 0).
Proof.
  assert (H : 4 <= 32) by lia. split; [exact H|].
  destruct (init_returns_empty_pipe LE [] 32 H)
    as (q & block & _ & E & Hw & Hr & _ & Hrem & _ & _ & _ & Hd & _).
  exists q. repeat split; assumption.
Defined.

(** X2: [tpipe_init] gives no pipe when [numBytes <= 0] or when [malloc]
    returns [NULL]: one of its two assertions fails.  With 1 to 3 bytes and a
    block from [malloc], that block is shorter than the 4 bytes which the
    store of the first [HLP_STOP] writes, so the store runs past the end of the
    block: the call has no defined behaviour. *)
Theorem init_gives_no_pipe (bo : Int32.byte_order) (heap : option (list byte))
        (numBytes : Z) :
  numBytes < 4 \/ heap = None ->
  tpipe_init bo heap numBytes
  = (if (numBytes <=? 0) || (match heap with Some _ => false | None => true end)
     then AssertionFailure else Undefined)
  /\ forall block,
      malloc heap numBytes = Some block -> 0 < numBytes < 4 ->
      Z.of_nat (length block) = numBytes
      /\ Arena.set_int32 bo block 0 HLP_STOP = None.
Proof.
  intros Hn.
  assert (Hblock : forall block,
             malloc heap numBytes = Some block -> 0 < numBytes < 4 ->
             Z.of_nat (length block) = numBytes
             /\ Arena.set_int32 bo block 0 HLP_STOP = None).
  { intros block Hm Hsmall. unfold malloc in Hm.
    destruct heap as [fresh|]; [|discriminate]. injection Hm as <-.
    rewrite length_resize. split; [lia|].
    destruct (Arena.set_int32 bo _ 0 HLP_STOP) as [b|] eqn:Eb; [|done].
    apply set_int32_inv in Eb as [_ Hb]. rewrite length_resize in Hb. lia. }
  split; [|exact Hblock].
  unfold tpipe_init.
  destruct (numBytes <=? 0) eqn:E; simpl.
  - apply Z.leb_le in E. destruct (0 <? numBytes) eqn:E'; [apply Z.ltb_lt in E'; lia|done].
  - apply Z.leb_gt in E. destruct (0 <? numBytes) eqn:E'; [|apply Z.ltb_ge in E'; lia].
    destruct heap as [fresh|]; simpl; [|done].
    destruct Hn as [Hn|Hn]; [|discriminate].
    destruct (Hblock _ eq_refl ltac:(lia)) as [_ Hs]. simpl in Hs. rewrite Hs. done.
Qed.

Lemma init_gives_no_pipe_witness :
  (2 < 4 \/ Some [] = @None (list byte))
  /\ tpipe_init LE (Some []) 2 = Undefined.
Proof.
  assert (H : 2 < 4 \/ Some [] = @None (list byte)) by (left; lia).
  split; [exact H|].
  exact (proj1 (init_gives_no_pipe LE (Some []) 2 H)).
Defined.

(** ** The [int32_t] slots *)

(** X3: a value stored with [TPIPE_SET_INT32_AT_BUFFER] inside the arena is
    the value [TPIPE_GET_INT32_AT_BUFFER] reads back there, in either byte
    order; the arena keeps its length and every slot that does not overlap
    the 4 bytes stored reads as before. *)
Theorem int32_store_load (bo : Int32.byte_order) (a : list byte) (off x : Z) :
  Int32.in_range x -> 0 <= off -> off + 4 <= Z.of_nat (length a) ->
  exists a',
    Arena.set_int32 bo a off x = Some a'
    /\ Arena.get_int32 bo a' off = Some x
    /\ length a' = length a
    /\ forall off', off' + 4 <= off \/ off + 4 <= off' ->
                    Arena.get_int32 bo a' off' = Arena.get_int32 bo a off'.
Proof.
  intros Hx H0 H4. destruct (set_int32_Some bo a off x H0 H4) as (a' & E & L).
  exists a'. split; [exact E|]. split; [|split; [exact L|]].
  - erewrite get_set_same by exact E. f_equal. by apply wrap_id.
  - intros off' Hd. eapply get_set_other; eauto.
Qed.

Lemma int32_store_load_witness :
  Int32.in_range (-1) /\ 0 <= 3 /\ 3 + 4 <= Z.of_nat (length (payload 8 x07))
  /\ exists a',
      Arena.set_int32 Int32.BigEndian (payload 8 x07) 3 (-1) = Some a'
      /\ Arena.get_int32 Int32.BigEndian a' 3 = Some (-1).
Proof.
  assert (Hx : Int32.in_range (-1)) by (vm_compute; intuition congruence).
  assert (H0 : 0 <= 3) by lia.
  assert (H4 : 3 + 4 <= Z.of_nat (length (payload 8 x07))) by (vm_compute; discriminate).
  split; [exact Hx|]. split; [exact H0|]. split; [exact H4|].
  destruct (int32_store_load Int32.BigEndian (payload 8 x07) 3 (-1) Hx H0 H4)
    as (a' & E & G & _).
  exists a'. split; assumption.
Defined.

(** ** Invariants of reachable pipes *)

Lemma reachable_small_wrapped (bo : Int32.byte_order) : reachable bo (small_wrapped bo).
Proof.
  assert (R0 : reachable bo (small_init bo)).
  { apply (reach_init bo (Some []) 32 _ 32); [done|]. destruct bo; vm_compute; reflexivity. }
  assert (R1 : reachable bo (small_first bo)).
  { apply (reach_write bo (small_init bo) (payload 20 x01) 20 _ 1 R0); [done|].
    destruct bo; vm_compute; reflexivity. }
  assert (R2 : reachable bo (small_consumed bo)).
  { apply (reach_consume bo (small_first bo) _ R1).
    destruct bo; vm_compute; reflexivity. }
  apply (reach_write bo (small_consumed bo) (payload 16 x03) 16 _ 1 R2); [done|].
  destruct bo; vm_compute; reflexivity.
Qed.

(** X4: in every pipe a client can reach through the interface the arena
    has [len] bytes, the remaining-bytes counter is the distance from the
    write cursor to the end of the arena, the write cursor is at the arena
    start or at least one slot past it, and at least 4 bytes remain behind
    it: the marker slot at the write cursor always lies in the arena. *)
Theorem reachable_bookkeeping (bo : Int32.byte_order) (q : TinyPipe) :
  reachable bo q ->
  Z.of_nat (length (buffer q)) = len q
  /\ 4 <= len q <= Int32.max_signed
  /\ remainingBytes q = len q - writeHead q
  /\ (writeHead q = 0 \/ 4 <= writeHead q)
  /\ 0 <= writeHead q /\ writeHead q + 4 <= len q.
Proof.
  intros H. apply reachable_wf in H. destruct H.
  repeat split; try assumption; lia.
Qed.

Lemma reachable_bookkeeping_witness :
  reachable LE (small_wrapped LE)
  /\ remainingBytes (small_wrapped LE) = len (small_wrapped LE) - writeHead (small_wrapped LE)
  /\ writeHead (small_wrapped LE) + 4 <= len (small_wrapped LE).
Proof.
  pose proof (reachable_small_wrapped LE) as R. split; [exact R|].
  destruct (reachable_bookkeeping LE (small_wrapped LE) R) as (_ & _ & Hrem & _ & _ & Hw).
  split; assumption.
Defined.

Lemma reachable_hasData_not_LOOP_witness :
  reachable LE (small_wrapped LE)
  /\ tpipe_hasData LE (small_wrapped LE)
     = Ok (mkTinyPipe (buffer (small_wrapped LE)) (writeHead (small_wrapped LE)) 0
                      (len (small_wrapped LE)) (remainingBytes (small_wrapped LE)), 16)
  /\ 16 <> HLP_LOOP.
Proof.
  pose proof (reachable_small_wrapped LE) as R.
  assert (H : tpipe_hasData LE (small_wrapped LE)
              = Ok (mkTinyPipe (buffer (small_wrapped LE)) (writeHead (small_wrapped LE)) 0
                      (len (small_wrapped LE)) (remainingBytes (small_wrapped LE)), 16))
    by (vm_compute; reflexivity).
  split; [exact R|]. split; [exact H|].
  exact (reachable_hasData_not_LOOP LE (small_wrapped LE) _ 16 R H).
Defined.

(** ** The consumer's calls *)

(** X6: [tpipe_hasData] can be polled: a second call right after the first
    returns the same value and leaves the pipe as the first call left it. *)
Theorem hasData_idempotent (bo : Int32.byte_order) (q q' : TinyPipe) (x : Z) :
  tpipe_hasData bo q = Ok (q', x) -> tpipe_hasData bo q' = Ok (q', x).
Proof.
  intros H. unfold tpipe_hasData in H. inv_bind H.
  destruct (v =? HLP_LOOP) eqn:E.
  - inv_bind H. injection H as <- <-. simpl in Ha0.
    unfold tpipe_hasData. simpl. rewrite Ha0. simpl.
    destruct (v0 =? HLP_LOOP); reflexivity.
  - injection H as <- <-. unfold tpipe_hasData. rewrite Ha. simpl. by rewrite E.
Qed.

Lemma hasData_idempotent_witness :
  tpipe_hasData LE (small_wrapped LE)
  = Ok (pipe_of (tpipe_hasData LE (small_wrapped LE)), 16)
  /\ tpipe_hasData LE (pipe_of (tpipe_hasData LE (small_wrapped LE)))
     = Ok (pipe_of (tpipe_hasData LE (small_wrapped LE)), 16).
Proof.
  assert (H : tpipe_hasData LE (small_wrapped LE)
              = Ok (pipe_of (tpipe_hasData LE (small_wrapped LE)), 16))
    by (vm_compute; reflexivity).
  split; [exact H|].
  exact (hasData_idempotent LE _ _ 16 H).
Defined.

(** X7: the read cycle composes: when [tpipe_hasData] has returned a value
    [n] other than 0, [tpipe_getReadBuffer] returns the pointer 4 bytes behind
    the read cursor together with the same [n], and the assertion of
    [tpipe_consume] holds, the read cursor moving on by [4 + n]. *)
Theorem hasData_then_read (bo : Int32.byte_order) (q q' : TinyPipe) (n : Z) :
  tpipe_hasData bo q = Ok (q', n) -> n <> 0 ->
  tpipe_getReadBuffer bo q' = Ok (readHead q' + 4, n)
  /\ tpipe_consume bo q'
     = Ok (mkTinyPipe (buffer q') (writeHead q') (readHead q' + (4 + n))
                      (len q') (remainingBytes q')).
Proof.
  intros H Hn.
  assert (Hv : Arena.get_int32 bo (buffer q') (readHead q') = Some n).
  { unfold tpipe_hasData in H. inv_bind H.
    destruct (v =? HLP_LOOP).
    - inv_bind H. injection H as <- <-. exact Ha0.
    - injection H as <- <-. exact Ha. }
  apply Z.eqb_neq in Hn.
  unfold tpipe_getReadBuffer, tpipe_consume. rewrite Hv. simpl.
  unfold HLP_STOP. rewrite Hn. done.
Qed.

Lemma hasData_then_read_witness :
  tpipe_hasData LE (small_first LE) = Ok (small_first LE, 20)
  /\ 20 <> 0
  /\ tpipe_getReadBuffer LE (small_first LE) = Ok (readHead (small_first LE) + 4, 20)
  /\ tpipe_consume LE (small_first LE)
     = Ok (mkTinyPipe (buffer (small_first LE)) (writeHead (small_first LE))
                      (readHead (small_first LE) + (4 + 20))
                      (len (small_first LE)) (remainingBytes (small_first LE))).
Proof.
  assert (H : tpipe_hasData LE (small_first LE) = Ok (small_first LE, 20))
    by (vm_compute; reflexivity).
  assert (Hn : 20 <> 0) by discriminate.
  split; [exact H|]. split; [exact Hn|].
  exact (hasData_then_read LE _ _ 20 H Hn).
Defined.

(** X8: the consumer's calls change nothing but the read cursor: after
    [tpipe_hasData] or [tpipe_consume] the arena, the write cursor, the
    capacity and the remaining-bytes counter are as before. *)
Theorem consumer_keeps_producer_state (bo : Int32.byte_order) (q q' : TinyPipe) :
  (exists x, tpipe_hasData bo q = Ok (q', x)) \/ tpipe_consume bo q = Ok q' ->
  buffer q' = buffer q /\ writeHead q' = writeHead q
  /\ len q' = len q /\ remainingBytes q' = remainingBytes q.
Proof.
  intros [[x H]|H].
  - unfold tpipe_hasData in H. inv_bind H. destruct (v =? HLP_LOOP).
    + inv_bind H. injection H as <- _. done.
    + injection H as <- _. done.
  - unfold tpipe_consume in H. inv_bind H. destruct (v =? HLP_STOP); [done|].
    inv_bind H. injection H as <-. done.
Qed.

Lemma consumer_keeps_producer_state_witness :
  ((exists x, tpipe_hasData LE (small_first LE) = Ok (small_consumed LE, x))
   \/ tpipe_consume LE (small_first LE) = Ok (small_consumed LE))
  /\ buffer (small_consumed LE) = buffer (small_first LE)
  /\ writeHead (small_consumed LE) = writeHead (small_first LE).
Proof.
  assert (H : (exists x, tpipe_hasData LE (small_first LE) = Ok (small_consumed LE, x))
              \/ tpipe_consume LE (small_first LE) = Ok (small_consumed LE))
    by (right; vm_compute; reflexivity).
  split; [exact H|].
  destruct (consumer_keeps_producer_state LE _ _ H) as (Hb & Hw & _).
  split; assumption.
Defined.

(** ** The producer's calls *)

Lemma wrap_requirement (n : Z) :
  Int32.in_range n ->
  Int32.wrap (n + 2 * sizeof_int32) = n + 8 \/ Int32.wrap (n + 2 * sizeof_int32) < 0.
Proof.
  intros Hn. destruct (Z_le_gt_dec (n + 8) Int32.max_signed) as [Hle|Hgt].
  - left. apply wrap_id. ilia.
  - right. unfold Int32.wrap, Int32.modulus, sizeof_int32.
    unfold Int32.in_range, Int32.max_signed, Int32.min_signed in *.
    change (2 ^ 31) with 2147483648 in *. change (2 ^ 32) with 4294967296.
    Z.div_mod_to_equations. lia.
Qed.

(** X9: [tpipe_getWriteBuffer] can be polled: on a well-formed pipe it
    returns, and a second call with the same byte count right after returns the
    same pointer (or [NULL] again) and leaves the pipe as the first call left
    it, also after the first call has wrapped the write cursor. *)
Theorem getWriteBuffer_poll (bo : Int32.byte_order) (q : TinyPipe) (n : Z) :
  wf bo q -> Int32.in_range n ->
  exists q1 p,
    tpipe_getWriteBuffer bo q n = Ok (q1, p)
    /\ tpipe_getWriteBuffer bo q1 n = Ok (q1, p).
Proof.
  intros Hwf Hn. pose proof Hwf as [].
  pose proof (wrap_requirement n Hn) as Ht.
  unfold tpipe_getWriteBuffer.
  set (total := Int32.wrap (n + 2 * sizeof_int32)) in *.
  destruct (total <=? remainingBytes q) eqn:Htail.
  { destruct (_ && _) eqn:Hov; eexists _, _; (split; [reflexivity|]);
      rewrite Htail, Hov; reflexivity. }
  destruct (total <=? len q) eqn:Hfit;
    [|eexists _, _; split; [reflexivity|]; rewrite Htail, Hfit; reflexivity].
  destruct (_ || _) eqn:Hov;
    [eexists _, _; split; [reflexivity|]; rewrite Htail, Hfit, Hov; reflexivity|].
  destruct (set_int32_Some bo (buffer q) 0 HLP_STOP) as (b1 & E1 & L1); [lia..|].
  destruct (set_int32_Some bo b1 (writeHead q) HLP_LOOP) as (b2 & E2 & L2); [lia..|].
  rewrite E1. simpl. rewrite E2. simpl.
  eexists _, _. split; [reflexivity|]. simpl. rewrite Hfit.
  apply Z.leb_gt in Htail. apply orb_false_iff in Hov as [_ Hov].
  rewrite Z.gtb_ltb in Hov. apply Z.ltb_ge in Hov.
  replace ((0 <? readHead q) && (0 + sizeof_int32 + n >=? readHead q)) with false;
    [reflexivity|].
  symmetry. apply andb_false_iff. right.
  rewrite Z.geb_leb. apply Z.leb_gt. ilia.
Qed.

Lemma getWriteBuffer_poll_witness :
  wf LE (fresh64 LE) /\ Int32.in_range 20
  /\ exists q1 p,
      tpipe_getWriteBuffer LE (fresh64 LE) 20 = Ok (q1, p)
      /\ tpipe_getWriteBuffer LE q1 20 = Ok (q1, p).
Proof.
  assert (Hn : Int32.in_range 20) by (vm_compute; intuition congruence).
  split; [exact wf_fresh64|]. split; [exact Hn|].
  exact (getWriteBuffer_poll LE (fresh64 LE) 20 wf_fresh64 Hn).
Defined.

Lemma getWriteBuffer_wrap_markers_witness :
  wf LE (small_consumed LE)
  /\ tpipe_getWriteBuffer LE (small_consumed LE) 16
     = Ok (pipe_of (tpipe_getWriteBuffer LE (small_consumed LE) 16), Some 4)
  /\ pipe_of (tpipe_getWriteBuffer LE (small_consumed LE) 16) <> small_consumed LE
  /\ 4 <= writeHead (small_consumed LE)
  /\ writeHead (pipe_of (tpipe_getWriteBuffer LE (small_consumed LE) 16)) = 0
  /\ Arena.get_int32 LE (buffer (pipe_of (tpipe_getWriteBuffer LE (small_consumed LE) 16)))
       0 = Some HLP_STOP
  /\ Arena.get_int32 LE (buffer (pipe_of (tpipe_getWriteBuffer LE (small_consumed LE) 16)))
       (writeHead (small_consumed LE)) = Some HLP_LOOP.
Proof.
  assert (Hwf : wf LE (small_consumed LE)).
  { split; try (vm_compute; intuition congruence).
    exists 20. split; [vm_compute; reflexivity|lia]. }
  assert (H : tpipe_getWriteBuffer LE (small_consumed LE) 16
              = Ok (pipe_of (tpipe_getWriteBuffer LE (small_consumed LE) 16), Some 4))
    by (vm_compute; reflexivity).
  assert (Hne : pipe_of (tpipe_getWriteBuffer LE (small_consumed LE) 16)
                <> small_consumed LE).
  { intros E. apply (f_equal writeHead) in E. vm_compute in E. discriminate. }
  split; [exact Hwf|]. split; [exact H|]. split; [exact Hne|].
  exact (getWriteBuffer_wrap_markers LE _ _ 16 (Some 4) Hwf H Hne).
Defined.

(** X11: a pipe with both cursors at the arena start, as [tpipe_init] and
    [tpipe_clear] leave it, takes a frame of [n] bytes, with
    [0 <= n <= INT_MAX - 8], exactly when [n + 8 <= len]: 4 bytes for its
    header and 4 for the marker behind it.  [tpipe_getWriteBuffer] then
    returns the slot after the first header, and [NULL] otherwise; it changes
    nothing either way. *)
Theorem fresh_pipe_capacity (bo : Int32.byte_order) (q : TinyPipe) (n : Z) :
  wf bo q -> writeHead q = 0 -> readHead q = 0 ->
  0 <= n <= Int32.max_signed - 8 ->
  tpipe_getWriteBuffer bo q n = Ok (q, if n + 8 <=? len q then Some 4 else None).
Proof.
  intros [] Hw Hr Hn. unfold tpipe_getWriteBuffer.
  rewrite wrap_id by ilia. rewrite Hw, Hr. simpl.
  replace (remainingBytes q) with (len q) by lia.
  unfold sizeof_int32. change (n + 2 * 4) with (n + 8).
  destruct (n + 8 <=? len q); reflexivity.
Qed.

Lemma fresh_pipe_capacity_witness :
  wf LE (fresh64 LE) /\ writeHead (fresh64 LE) = 0 /\ readHead (fresh64 LE) = 0
  /\ 0 <= 57 <= Int32.max_signed - 8
  /\ tpipe_getWriteBuffer LE (fresh64 LE) 57 = Ok (fresh64 LE, None).
Proof.
  assert (Hn : 0 <= 57 <= Int32.max_signed - 8) by (vm_compute; intuition congruence).
  split; [exact wf_fresh64|]. split; [reflexivity|]. split; [reflexivity|].
  split; [exact Hn|].
  exact (fresh_pipe_capacity LE (fresh64 LE) 57 wf_fresh64 eq_refl eq_refl Hn).
Defined.

(** X12: a byte count within 8 of [INT_MAX] defeats the space check: the
    requirement [bytesToWrite + 8] wraps to a negative [int], so with the
    write cursor not behind the read cursor [tpipe_getWriteBuffer] returns a
    pointer although nothing of that size fits, and [tpipe_write] then has no
    defined behaviour. *)
Theorem getWriteBuffer_requirement_wraps (bo : Int32.byte_order) (q : TinyPipe)
        (data : list byte) (n : Z) :
  wf bo q -> readHead q <= writeHead q ->
  Int32.max_signed - 8 < n <= Int32.max_signed ->
  tpipe_getWriteBuffer bo q n = Ok (q, Some (writeHead q + 4))
  /\ tpipe_write bo q data n = Undefined.
Proof.
  intros [] Hr Hn.
  assert (Hneg : Int32.wrap (n + 2 * sizeof_int32) < 0).
  { destruct (wrap_requirement n) as [E|E]; [ilia| |exact E].
    pose proof (wrap_in_range (n + 2 * sizeof_int32)). ilia. }
  assert (Hg : tpipe_getWriteBuffer bo q n = Ok (q, Some (writeHead q + 4))).
  { unfold tpipe_getWriteBuffer.
    replace (_ <=? remainingBytes q) with true by (symmetry; apply Z.leb_le; lia).
    replace (writeHead q <? readHead q) with false by (symmetry; apply Z.ltb_ge; lia).
    reflexivity. }
  split; [exact Hg|].
  unfold tpipe_write. rewrite Hg. simpl.
  destruct (memcpy (buffer q) (writeHead q + 4) data n) as [a| |] eqn:Em; simpl.
  - unfold tpipe_produce, add_int.
    replace (Int32.in_rangeb (n + 2 * sizeof_int32)) with false; [reflexivity|].
    symmetry. apply not_true_iff_false. rewrite in_rangeb_spec. ilia.
  - unfold memcpy in Em. destruct (n <? 0); [discriminate|].
    destruct (Arena.load_bytes data 0 n); simpl in Em; [|discriminate].
    destruct (Arena.store_bytes _ _ _); discriminate.
  - reflexivity.
Qed.

Lemma getWriteBuffer_requirement_wraps_witness :
  wf LE (fresh64 LE) /\ readHead (fresh64 LE) <= writeHead (fresh64 LE)
  /\ Int32.max_signed - 8 < 2147483647 <= Int32.max_signed
  /\ tpipe_getWriteBuffer LE (fresh64 LE) 2147483647
     = Ok (fresh64 LE, Some (writeHead (fresh64 LE) + 4))
  /\ tpipe_write LE (fresh64 LE) [] 2147483647 = Undefined.
Proof.
  assert (Hr : readHead (fresh64 LE) <= writeHead (fresh64 LE))
    by (vm_compute; discriminate).
  assert (Hn : Int32.max_signed - 8 < 2147483647 <= Int32.max_signed)
    by (vm_compute; intuition congruence).
  split; [exact wf_fresh64|]. split; [exact Hr|]. split; [exact Hn|].
  exact (getWriteBuffer_requirement_wraps LE (fresh64 LE) [] 2147483647 wf_fresh64 Hr Hn).
Defined.

(** X17: the producer's calls never move the read cursor and never change
    the capacity: [tpipe_getWriteBuffer], [tpipe_produce] and [tpipe_write]
    leave [readHead] and [len] as they were. *)
Theorem producer_keeps_readHead (bo : Int32.byte_order) (q q' : TinyPipe) :
  (exists n p, tpipe_getWriteBuffer bo q n = Ok (q', p))
  \/ (exists n, tpipe_produce bo q n = Ok q')
  \/ (exists data n r, tpipe_write bo q data n = Ok (q', r)) ->
  readHead q' = readHead q /\ len q' = len q.
Proof.
  assert (Hg : forall q q' n p, tpipe_getWriteBuffer bo q n = Ok (q', p) ->
                                readHead q' = readHead q /\ len q' = len q).
  { clear. intros q q' n p H. unfold tpipe_getWriteBuffer in H.
    destruct (_ <=? remainingBytes q).
    { destruct (_ && _); injection H as <- _; done. }
    destruct (_ <=? len q); [|injection H as <- _; done].
    destruct (_ || _); [injection H as <- _; done|].
    inv_bind H. inv_bind H. injection H as <- _. done. }
  assert (Hp : forall q q' n, tpipe_produce bo q n = Ok q' ->
                              readHead q' = readHead q /\ len q' = len q).
  { clear. intros q q' n H. unfold tpipe_produce in H. inv_bind H.
    destruct (remainingBytes q >=? v); [|discriminate].
    inv_bind H. inv_bind H. injection H as <-. done. }
  intros [(n & p & H)|[(n & H)|(data & n & r & H)]]; [eauto..|].
  unfold tpipe_write in H. inv_bind H. destruct v as [q1 [dst|]].
  - inv_bind H. inv_bind H. injection H as <- _.
    apply Hg in Ha as [E1 E2]. apply Hp in Ha1 as [E3 E4]. simpl in *.
    split; congruence.
  - injection H as <- _. eauto.
Qed.

Lemma producer_keeps_readHead_witness :
  ((exists n p, tpipe_getWriteBuffer LE (small_consumed LE) n = Ok (small_wrapped LE, p))
   \/ (exists n, tpipe_produce LE (small_consumed LE) n = Ok (small_wrapped LE))
   \/ (exists data n r, tpipe_write LE (small_consumed LE) data n = Ok (small_wrapped LE, r)))
  /\ readHead (small_wrapped LE) = readHead (small_consumed LE)
  /\ len (small_wrapped LE) = len (small_consumed LE).
Proof.
  assert (H : (exists n p, tpipe_getWriteBuffer LE (small_consumed LE) n
                           = Ok (small_wrapped LE, p))
              \/ (exists n, tpipe_produce LE (small_consumed LE) n = Ok (small_wrapped LE))
              \/ (exists data n r, tpipe_write LE (small_consumed LE) data n
                                   = Ok (small_wrapped LE, r))).
  { right. right. exists (payload 16 x03), 16, 1. vm_compute; reflexivity. }
  split; [exact H|].
  exact (producer_keeps_readHead LE _ _ H).
Defined.

(** ** [tpipe_write] *)

Lemma getWriteBuffer_tail (bo : Int32.byte_order) (q : TinyPipe) (n : Z) :
  0 <= n <= Int32.max_signed - 8 ->
  n + 8 <= remainingBytes q ->
  readHead q <= writeHead q \/ writeHead q + 4 + n < readHead q ->
  tpipe_getWriteBuffer bo q n = Ok (q, Some (writeHead q + 4)).
Proof.
  intros Hn Hroom Hfree. unfold tpipe_getWriteBuffer. rewrite wrap_id by ilia.
  replace (_ <=? remainingBytes q) with true by (symmetry; apply Z.leb_le; ilia).
  replace (_ && _) with false; [reflexivity|].
  symmetry. apply andb_false_iff. destruct Hfree as [H|H].
  - left. apply Z.ltb_ge. lia.
  - right. rewrite Z.geb_leb. apply Z.leb_gt. ilia.
Qed.

Lemma getWriteBuffer_writeHead (bo : Int32.byte_order) (q q1 : TinyPipe) (n : Z)
      (p : option Z) :
  tpipe_getWriteBuffer bo q n = Ok (q1, p) ->
  (q1 = q \/ (writeHead q1 = 0 /\ p <> None)) /\ (p = None -> q1 = q).
Proof.
  intros H. unfold tpipe_getWriteBuffer in H.
  destruct (_ <=? remainingBytes q).
  { destruct (_ && _); injection H as <- <-; split; auto. }
  destruct (_ <=? len q); [|injection H as <- <-; split; auto].
  destruct (_ || _); [injection H as <- <-; split; auto|].
  inv_bind H. inv_bind H. injection H as <- <-. split; [right; done|done].
Qed.

(** What the copy and [tpipe_produce] of [tpipe_write] do once
    [tpipe_getWriteBuffer] has returned a pointer. *)
Lemma write_after_acquire (bo : Int32.byte_order) (q q1 : TinyPipe) (data : list byte)
      (n dst : Z) :
  wf bo q -> 0 <= n <= Int32.max_signed - 8 ->
  tpipe_getWriteBuffer bo q n = Ok (q1, Some dst) ->
  n <= Z.of_nat (length data) ->
  exists q2,
    tpipe_write bo q data n = Ok (q2, 1)
    /\ wf bo q2
    /\ writeHead q2 = writeHead q1 + 4 + n
    /\ remainingBytes q2 = remainingBytes q1 - (4 + n)
    /\ readHead q2 = readHead q /\ len q2 = len q
    /\ Arena.get_int32 bo (buffer q2) (writeHead q1) = Some n
    /\ Arena.load_bytes (buffer q2) (writeHead q1 + 4) n = Some (take (Z.to_nat n) data)
    /\ Arena.get_int32 bo (buffer q2) (writeHead q2) = Some HLP_STOP
    /\ unchanged_outside (buffer q1) (buffer q2) (writeHead q1) (writeHead q1 + n + 8).
Proof.
  intros Hwf Hn Hg Hdata.
  destruct (getWriteBuffer_room bo _ _ _ _ Hwf Hn Hg) as (Hwf1 & Hroom & -> & Hr1 & Hl1).
  pose proof Hwf1 as [].
  set (src := take (Z.to_nat n) data).
  assert (Hsrc : Z.of_nat (length src) = n) by (unfold src; rewrite length_take; lia).
  assert (Hload : Arena.load_bytes data 0 n = Some src).
  { rewrite load_bytes_Some by lia. change (Z.to_nat 0) with 0%nat. by rewrite drop_0. }
  assert (Hstore : Arena.store_bytes (buffer q1) (writeHead q1 + 4) src
                   = Some (list_inserts (Z.to_nat (writeHead q1 + 4)) src (buffer q1))).
  { apply store_bytes_Some; lia. }
  set (a := list_inserts (Z.to_nat (writeHead q1 + 4)) src (buffer q1)) in *.
  assert (Hcpy : memcpy (buffer q1) (writeHead q1 + 4) data n = Ok a).
  { unfold memcpy. destruct (n <? 0) eqn:E; [apply Z.ltb_lt in E; lia|].
    rewrite Hload. simpl. rewrite Hstore. reflexivity. }
  assert (Hwfa : wf bo (with_buffer q1 a)).
  { eapply wf_with_buffer; [exact Hwf1| |exact Hcpy]. lia. }
  destruct (produce_ok bo (with_buffer q1 a) n Hwfa) as
    (q2 & Hp & Hs & Hh & Hw2 & Hrem2 & Hr2 & Hl2 & Hpay); [simpl; lia..|].
  simpl in *.
  pose proof (store_unchanged_outside _ _ _ _ Hstore) as U1.
  pose proof (produce_unchanged bo _ _ _ Hp ltac:(lia)) as U2. simpl in U2.
  exists q2. split.
  { unfold tpipe_write. rewrite Hg. simpl. rewrite Hcpy. simpl.
    unfold with_buffer in Hp. rewrite Hp. reflexivity. }
  split; [eapply wf_produce; [exact Hwfa| |exact Hp]; lia|].
  repeat match goal with |- _ /\ _ => split end; try lia; try congruence.
  - rewrite Hpay, <- Hsrc. eapply load_store_same. exact Hstore.
  - rewrite Hw2, <- Hs. f_equal. lia.
  - eapply unchanged_outside_trans; [exact U1|exact U2|lia..].
Qed.

(** X13: a [tpipe_write] of [n] bytes that returns 0 has left the pipe as it
    was; one that returns 1 has stored, at the old write cursor or after a
    wrap at the arena start, a header holding [n] and behind it the first [n]
    bytes of [data], has put the write cursor behind them with [HLP_STOP] in
    its slot, and has not moved the read cursor. *)
Theorem write_stores_frame (bo : Int32.byte_order) (q q' : TinyPipe) (data : list byte)
        (n r : Z) :
  wf bo q -> 0 <= n <= Int32.max_signed - 8 ->
  tpipe_write bo q data n = Ok (q', r) ->
  (r = 0 /\ q' = q)
  \/ (r = 1
      /\ exists w0,
          (w0 = writeHead q \/ w0 = 0)
          /\ writeHead q' = w0 + 4 + n
          /\ Arena.get_int32 bo (buffer q') w0 = Some n
          /\ Arena.load_bytes (buffer q') (w0 + 4) n = Some (take (Z.to_nat n) data)
          /\ Arena.get_int32 bo (buffer q') (writeHead q') = Some HLP_STOP
          /\ readHead q' = readHead q /\ wf bo q').
Proof.
  intros Hwf Hn H.
  destruct (getWriteBuffer_returns bo q n Hwf) as (q1 & p & Hg).
  destruct (getWriteBuffer_writeHead bo _ _ _ _ Hg) as [Hw Hnone].
  destruct p as [dst|].
  - right.
    assert (Hdata : n <= Z.of_nat (length data)).
    { unfold tpipe_write in H. rewrite Hg in H. simpl in H. inv_bind H.
      apply memcpy_inv in Ha as (_ & src & Hl & _ & _).
      apply load_bytes_inv in Hl. lia. }
    destruct (write_after_acquire bo q q1 data n dst Hwf Hn Hg Hdata)
      as (q2 & E & Hwf2 & Hw2 & _ & Hr2 & _ & Hh & Hp & Hs & _).
    rewrite E in H. injection H as <- <-. split; [done|].
    exists (writeHead q1). split.
    { destruct Hw as [->|[-> _]]; auto. }
    repeat match goal with |- _ /\ _ => split end; assumption.
  - left. unfold tpipe_write in H. rewrite Hg in H. simpl in H.
    injection H as <- <-. split; [done|]. by apply Hnone.
Qed.

Lemma write_stores_frame_witness :
  wf LE (fresh64 LE) /\ 0 <= 20 <= Int32.max_signed - 8
  /\ tpipe_write LE (fresh64 LE) (payload 20 x01) 20
     = Ok (pipe_of (tpipe_write LE (fresh64 LE) (payload 20 x01) 20), 1)
  /\ ((1 = 0 /\ pipe_of (tpipe_write LE (fresh64 LE) (payload 20 x01) 20) = fresh64 LE)
      \/ (1 = 1
          /\ exists w0,
              (w0 = writeHead (fresh64 LE) \/ w0 = 0)
              /\ writeHead (pipe_of (tpipe_write LE (fresh64 LE) (payload 20 x01) 20))
                 = w0 + 4 + 20
              /\ Arena.get_int32 LE
                   (buffer (pipe_of (tpipe_write LE (fresh64 LE) (payload 20 x01) 20))) w0
                 = Some 20
              /\ Arena.load_bytes
                   (buffer (pipe_of (tpipe_write LE (fresh64 LE) (payload 20 x01) 20)))
                   (w0 + 4) 20
                 = Some (take (Z.to_nat 20) (payload 20 x01))
              /\ Arena.get_int32 LE
                   (buffer (pipe_of (tpipe_write LE (fresh64 LE) (payload 20 x01) 20)))
                   (writeHead (pipe_of (tpipe_write LE (fresh64 LE) (payload 20 x01) 20)))
                 = Some HLP_STOP
              /\ readHead (pipe_of (tpipe_write LE (fresh64 LE) (payload 20 x01) 20))
                 = readHead (fresh64 LE)
              /\ wf LE (pipe_of (tpipe_write LE (fresh64 LE) (payload 20 x01) 20)))).
Proof.
  assert (Hn : 0 <= 20 <= Int32.max_signed - 8) by (vm_compute; intuition congruence).
  assert (H : tpipe_write LE (fresh64 LE) (payload 20 x01) 20
              = Ok (pipe_of (tpipe_write LE (fresh64 LE) (payload 20 x01) 20), 1))
    by (vm_compute; reflexivity).
  split; [exact wf_fresh64|]. split; [exact Hn|]. split; [exact H|].
  exact (write_stores_frame LE _ _ _ 20 1 wf_fresh64 Hn H).
Defined.

(** X14: an empty pipe, read cursor on the write cursor, takes every frame
    that needs at most half of the arena: with [2 * (n + 8) <= len] the
    [n + 8] bytes fit behind the write cursor or, after a wrap, in front of
    the read cursor, and [tpipe_write] returns 1. *)
Theorem empty_pipe_accepts (bo : Int32.byte_order) (q : TinyPipe) (data : list byte) (n : Z) :
  wf bo q -> readHead q = writeHead q ->
  0 <= n -> 2 * (n + 8) <= len q -> n <= Z.of_nat (length data) ->
  exists q', tpipe_write bo q data n = Ok (q', 1).
Proof.
  intros Hwf Hr Hn Hhalf Hdata. pose proof Hwf as [].
  assert (Hmax : 0 <= n <= Int32.max_signed - 8) by ilia.
  assert (Hg : exists q1 dst, tpipe_getWriteBuffer bo q n = Ok (q1, Some dst)).
  { destruct (Z_le_gt_dec (n + 8) (remainingBytes q)) as [Hle|Hgt].
    - eexists _, _. apply getWriteBuffer_tail; [done|done|lia].
    - unfold tpipe_getWriteBuffer. rewrite wrap_id by ilia.
      replace (_ <=? remainingBytes q) with false by (symmetry; apply Z.leb_gt; ilia).
      replace (_ <=? len q) with true by (symmetry; apply Z.leb_le; ilia).
      replace (_ || _) with false.
      2:{ symmetry. apply orb_false_iff. split; [apply Z.ltb_ge; lia|].
          rewrite Z.gtb_ltb. apply Z.ltb_ge. ilia. }
      destruct (set_int32_Some bo (buffer q) 0 HLP_STOP) as (b1 & E1 & L1); [lia..|].
      destruct (set_int32_Some bo b1 (writeHead q) HLP_LOOP) as (b2 & E2 & L2); [lia..|].
      rewrite E1. simpl. rewrite E2. simpl. eauto. }
  destruct Hg as (q1 & dst & Hg).
  destruct (write_after_acquire bo q q1 data n dst Hwf Hmax Hg Hdata) as (q2 & E & _).
  eauto.
Qed.

Lemma empty_pipe_accepts_witness :
  wf LE (fresh64 LE) /\ readHead (fresh64 LE) = writeHead (fresh64 LE)
  /\ 0 <= 24 /\ 2 * (24 + 8) <= len (fresh64 LE)
  /\ 24 <= Z.of_nat (length (payload 24 x01))
  /\ exists q', tpipe_write LE (fresh64 LE) (payload 24 x01) 24 = Ok (q', 1).
Proof.
  assert (H0 : 0 <= 24) by lia.
  assert (H1 : 2 * (24 + 8) <= len (fresh64 LE)) by (vm_compute; discriminate).
  assert (H2 : 24 <= Z.of_nat (length (payload 24 x01))) by (vm_compute; discriminate).
  split; [exact wf_fresh64|]. split; [reflexivity|]. split; [exact H0|].
  split; [exact H1|]. split; [exact H2|].
  exact (empty_pipe_accepts LE (fresh64 LE) (payload 24 x01) 24 wf_fresh64 eq_refl H0 H1 H2).
Defined.



(** ** Pipes that carry frames of aligned length *)

Lemma total_length_app (fs1 fs2 : list (list byte)) :
  total_length (fs1 ++ fs2) = total_length fs1 + total_length fs2.
Proof.
  induction fs1 as [|f fs1 IH]; simpl; [done|]. rewrite IH. lia.
Qed.

Lemma total_length_nonneg (fs : list (list byte)) : 0 <= total_length fs.
Proof. induction fs as [|f fs IH]; simpl; lia. Qed.

Lemma chain_total_length (bo : Int32.byte_order) (a : list byte) (pos : Z)
      (fs : list (list byte)) (stop : Z) :
  chain bo a pos fs stop -> total_length fs <= stop - pos.
Proof.
  revert pos. induction fs as [|f fs IH]; simpl; intros pos H.
  - lia.
  - destruct H as [_ H]. apply IH in H. lia.
Qed.

(** The loop of [tpipe_getTotalData] walks a chain of frames and adds up
    their lengths. *)
Lemma getTotalData_loop_chain (bo : Int32.byte_order) (q : TinyPipe)
      (fs : list (list byte)) (pos stop acc : Z) (k : nat) :
  chain bo (buffer q) pos fs stop ->
  0 <= acc -> acc + total_length fs <= Int32.max_signed ->
  getTotalData_loop bo (length fs + k) q pos acc
  = getTotalData_loop bo k q stop (acc + total_length fs).
Proof.
  revert pos acc. induction fs as [|f fs IH]; simpl; intros pos acc Hc Hacc Hmax.
  - subst. f_equal. lia.
  - destruct Hc as [(Hpos & Hh & _) Hc]. rewrite Hh.
    pose proof (total_length_nonneg fs) as Hnn.
    replace (Z.of_nat (length f) =? HLP_STOP) with false
      by (symmetry; apply Z.eqb_neq; ilia).
    replace (Z.of_nat (length f) =? HLP_LOOP) with false
      by (symmetry; apply Z.eqb_neq; ilia).
    rewrite add_int_Ok by ilia.
    replace (pos + (sizeof_int32 + Z.of_nat (length f)))
      with (pos + 4 + Z.of_nat (length f)) by ilia.
    rewrite IH by (first [done | lia]). f_equal. lia.
Qed.

(** On a pipe that holds the frames [fs], [tpipe_getTotalData] returns the
    number of their payload bytes. *)
Lemma getTotalData_repr (bo : Int32.byte_order) (q : TinyPipe) (fs : list (list byte))
      (fuel : nat) :
  repr bo q fs -> (length fs + 2 <= fuel)%nat ->
  tpipe_getTotalData bo fuel q = Some (Ok (total_length fs)).
Proof.
  intros [Hwf Hr0 _ _ Hstop Hlay] Hfuel. pose proof Hwf as [].
  apply (getTotalData_loop_mono bo (length fs + 2)); [exact Hfuel|].
  unfold tpipe_getTotalData.
  destruct Hlay as [Hle Hc|fs1 fs2 e -> Hlt H1 He H2].
  - pose proof (chain_total_length _ _ _ _ _ Hc) as Ht.
    rewrite (getTotalData_loop_chain bo q fs _ _ 0 2 Hc) by ilia.
    simpl. rewrite Hstop. reflexivity.
  - pose proof (chain_total_length _ _ _ _ _ H1) as Ht1.
    pose proof (chain_total_length _ _ _ _ _ H2) as Ht2.
    pose proof (total_length_nonneg fs1). pose proof (total_length_nonneg fs2).
    apply get_int32_inv in He as He'. destruct He' as (_ & He' & _).
    rewrite length_app, total_length_app.
    replace (length fs1 + length fs2 + 2)%nat
      with (length fs1 + S (length fs2 + 1))%nat by lia.
    rewrite (getTotalData_loop_chain bo q fs1 _ _ 0 _ H1) by ilia.
    simpl. rewrite He. simpl.
    rewrite (getTotalData_loop_chain bo q fs2 _ _ _ 1 H2) by ilia.
    simpl. rewrite Hstop. simpl. f_equal.
Qed.

(** The frames a pipe holds after [tpipe_init] and calls with frames of
    aligned length: those written and not yet read. *)
Lemma run_from_init (bo : Int32.byte_order) (heap : option (list byte)) (numBytes : Z)
      (q0 : TinyPipe) (r : Z) (ops : list op) (q : TinyPipe)
      (written got : list (list byte)) :
  numBytes <= Int32.max_signed ->
  tpipe_init bo heap numBytes = Ok (q0, r) ->
  Forall aligned_op ops ->
  run bo ops q0 [] [] = Ok (q, written, got) ->
  repr bo q (drop (length got) written) /\ written = got ++ drop (length got) written.
Proof.
  intros Hmax Hinit Hops Hrun.
  pose proof (repr_init bo _ _ _ _ Hmax Hinit) as Hrep0.
  destruct (run_repr bo ops q0 [] [] [] Hrep0 Hops eq_refl)
    as (q' & written' & got' & fs & Hrun' & Hrep & Hw).
  rewrite Hrun in Hrun'. injection Hrun' as <- <- <-.
  subst written. rewrite drop_app_length. done.
Qed.

(** X18: after a [tpipe_init] that has returned and any sequence of writes
    of frames whose lengths are positive multiples of 4, at most
    [INT_MAX - 8], and of read cycles, [tpipe_hasData] returns the length of
    the oldest frame written and not yet read, and 0 when every frame written
    has been read. *)
Theorem hasData_aligned (bo : Int32.byte_order) (heap : option (list byte)) (numBytes : Z)
        (q0 : TinyPipe) (r : Z) (ops : list op) (q : TinyPipe)
        (written got : list (list byte)) :
  numBytes <= Int32.max_signed ->
  tpipe_init bo heap numBytes = Ok (q0, r) ->
  Forall aligned_op ops ->
  run bo ops q0 [] [] = Ok (q, written, got) ->
  exists q',
    tpipe_hasData bo q
    = Ok (q', match drop (length got) written with
              | [] => 0
              | f :: _ => Z.of_nat (length f)
              end).
Proof.
  intros Hmax Hinit Hops Hrun.
  destruct (run_from_init bo _ _ _ _ _ _ _ _ Hmax Hinit Hops Hrun) as [Hrep _].
  destruct (hasData_repr bo q _ Hrep) as (q' & E & _). eauto.
Qed.

(** X19: after a [tpipe_init] that has returned and any sequence of writes
    of frames whose lengths are positive multiples of 4, at most
    [INT_MAX - 8], and of read cycles, [tpipe_getTotalData] returns the
    payload bytes written (by the writes that returned 1) less the payload
    bytes read, also across a [HLP_LOOP]; two loop iterations more than there
    are frames are enough. *)
Theorem getTotalData_accounting (bo : Int32.byte_order) (heap : option (list byte))
        (numBytes : Z) (q0 : TinyPipe) (r : Z) (ops : list op) (q : TinyPipe)
        (written got : list (list byte)) (fuel : nat) :
  numBytes <= Int32.max_signed ->
  tpipe_init bo heap numBytes = Ok (q0, r) ->
  Forall aligned_op ops ->
  run bo ops q0 [] [] = Ok (q, written, got) ->
  (length written + 2 <= fuel)%nat ->
  tpipe_getTotalData bo fuel q = Some (Ok (total_length written - total_length got)).
Proof.
  intros Hmax Hinit Hops Hrun Hfuel.
  destruct (run_from_init bo _ _ _ _ _ _ _ _ Hmax Hinit Hops Hrun) as [Hrep Hw].
  rewrite (getTotalData_repr bo q _ fuel Hrep).
  - do 2 f_equal. rewrite Hw at 2. rewrite total_length_app. lia.
  - rewrite length_drop. lia.
Qed.

Lemma repr_clear (bo : Int32.byte_order) (q q' : TinyPipe) :
  wf bo q -> tpipe_clear q = Ok q' -> repr bo q' [].
Proof.
  intros Hwf H. pose proof (wf_clear bo _ _ Hwf H) as Hwf'.
  destruct Hwf. unfold tpipe_clear in H.
  destruct (len q <? 0); [discriminate|].
  inv_bind H. injection H as <-.
  apply store_bytes_inv in Ha as (_ & _ & ->).
  rewrite list_inserts_all by (rewrite length_replicate; lia).
  rewrite list_inserts_all in Hwf' by (rewrite length_replicate; lia).
  split; simpl; try done.
  - apply get_int32_zeros. lia.
  - apply layout_linear; simpl; done.
Qed.

(** X20: [tpipe_clear] makes any well-formed pipe, whatever its arena
    held, as good as new: after it every sequence of writes of frames whose
    lengths are positive multiples of 4, at most [INT_MAX - 8], and of read
    cycles returns, and the frames read, followed by those that reading on
    gives, are the frames of the writes that returned 1, in order. *)
Theorem fifo_after_clear (bo : Int32.byte_order) (q : TinyPipe) (ops : list op) :
  wf bo q -> Forall aligned_op ops ->
  exists q0 q1 written got q' rest,
    tpipe_clear q = Ok q0
    /\ run bo ops q0 [] [] = Ok (q1, written, got)
    /\ drain bo (S (length written)) q1 = Ok (q', rest)
    /\ got ++ rest = written.
Proof.
  intros Hwf Hops.
  assert (Hc : exists q0, tpipe_clear q = Ok q0).
  { destruct Hwf. unfold tpipe_clear.
    destruct (len q <? 0) eqn:E; [apply Z.ltb_lt in E; lia|].
    rewrite store_bytes_Some by (rewrite ?length_replicate; lia). simpl. eauto. }
  destruct Hc as [q0 Hc].
  pose proof (repr_clear bo _ _ Hwf Hc) as Hrep0.
  destruct (run_repr bo ops q0 [] [] [] Hrep0 Hops eq_refl)
    as (q1 & written & got & fs & Hrun & Hrep & Hw).
  destruct (drain_repr bo fs q1 (S (length written)) Hrep) as (q' & Hd & _).
  { subst written. rewrite length_app. lia. }
  exists q0, q1, written, got, q', fs. done.
Qed.

Lemma aligned_ops_small :
  Forall aligned_op
    [Write (payload 20 x01); Write (payload 20 x02); Read; Write (payload 16 x03)].
Proof. repeat constructor; vm_compute; congruence. Defined.

Lemma hasData_aligned_witness :
  32 <= Int32.max_signed
  /\ tpipe_init LE (Some []) 32 = Ok (small_init LE, 32)
  /\ Forall aligned_op
       [Write (payload 20 x01); Write (payload 20 x02); Read; Write (payload 16 x03)]
  /\ run LE [Write (payload 20 x01); Write (payload 20 x02); Read; Write (payload 16 x03)]
       (small_init LE) [] []
     = Ok (small_wrapped LE, [payload 20 x01; payload 16 x03], [payload 20 x01])
  /\ exists q', tpipe_hasData LE (small_wrapped LE) = Ok (q', 16).
Proof.
  assert (Hmax : 32 <= Int32.max_signed) by (vm_compute; discriminate).
  assert (Hinit : tpipe_init LE (Some []) 32 = Ok (small_init LE, 32)) by (vm_compute; reflexivity).
  assert (Hrun : run LE [Write (payload 20 x01); Write (payload 20 x02); Read;
                         Write (payload 16 x03)] (small_init LE) [] []
                 = Ok (small_wrapped LE, [payload 20 x01; payload 16 x03], [payload 20 x01]))
    by (vm_compute; reflexivity).
  split; [exact Hmax|]. split; [exact Hinit|]. split; [exact aligned_ops_small|].
  split; [exact Hrun|].
  exact (hasData_aligned LE (Some []) 32 _ 32 _ _ _ _ Hmax Hinit aligned_ops_small Hrun).
Defined.

Lemma getTotalData_accounting_witness :
  32 <= Int32.max_signed
  /\ tpipe_init LE (Some []) 32 = Ok (small_init LE, 32)
  /\ Forall aligned_op
       [Write (payload 20 x01); Write (payload 20 x02); Read; Write (payload 16 x03)]
  /\ run LE [Write (payload 20 x01); Write (payload 20 x02); Read; Write (payload 16 x03)]
       (small_init LE) [] []
     = Ok (small_wrapped LE, [payload 20 x01; payload 16 x03], [payload 20 x01])
  /\ (length [payload 20 x01; payload 16 x03] + 2 <= 4)%nat
  /\ tpipe_getTotalData LE 4 (small_wrapped LE)
     = Some (Ok (total_length [payload 20 x01; payload 16 x03]
                 - total_length [payload 20 x01])).
Proof.
  assert (Hmax : 32 <= Int32.max_signed) by (vm_compute; discriminate).
  assert (Hinit : tpipe_init LE (Some []) 32 = Ok (small_init LE, 32)) by (vm_compute; reflexivity).
  assert (Hrun : run LE [Write (payload 20 x01); Write (payload 20 x02); Read;
                         Write (payload 16 x03)] (small_init LE) [] []
                 = Ok (small_wrapped LE, [payload 20 x01; payload 16 x03], [payload 20 x01]))
    by (vm_compute; reflexivity).
  assert (Hfuel : (length [payload 20 x01; payload 16 x03] + 2 <= 4)%nat) by (simpl; lia).
  split; [exact Hmax|]. split; [exact Hinit|]. split; [exact aligned_ops_small|].
  split; [exact Hrun|]. split; [exact Hfuel|].
  exact (getTotalData_accounting LE (Some []) 32 _ 32 _ _ _ _ 4 Hmax Hinit aligned_ops_small
           Hrun Hfuel).
Defined.

Lemma fifo_after_clear_witness :
  wf LE (ring_BCD LE)
  /\ Forall aligned_op
       [Write (payload 20 x01); Write (payload 20 x02); Read; Write (payload 16 x03)]
  /\ exists q0 q1 written got q' rest,
      tpipe_clear (ring_BCD LE) = Ok q0
      /\ run LE [Write (payload 20 x01); Write (payload 20 x02); Read;
                 Write (payload 16 x03)] q0 [] [] = Ok (q1, written, got)
      /\ drain LE (S (length written)) q1 = Ok (q', rest)
      /\ got ++ rest = written.
Proof.
  assert (Hwf : wf LE (ring_BCD LE)).
  { split; try (vm_compute; intuition congruence).
    exists 5. split; [vm_compute; reflexivity|lia]. }
  split; [exact Hwf|]. split; [exact aligned_ops_small|].
  exact (fifo_after_clear LE (ring_BCD LE) _ Hwf aligned_ops_small).
Defined.

(** X21: a frame that needs more than the whole arena is never taken: with
    [n + 8 > len], [tpipe_getWriteBuffer] returns [NULL] on every well-formed
    pipe, wherever the cursors are, and [tpipe_write] returns 0. *)
Theorem oversize_rejected (bo : Int32.byte_order) (q : TinyPipe) (data : list byte) (n : Z) :
  wf bo q -> len q < n + 8 -> n <= Int32.max_signed - 8 ->
  tpipe_getWriteBuffer bo q n = Ok (q, None)
  /\ tpipe_write bo q data n = Ok (q, 0).
Proof.
  intros [] Hbig Hmax.
  assert (Hg : tpipe_getWriteBuffer bo q n = Ok (q, None)).
  { unfold tpipe_getWriteBuffer. rewrite wrap_id by ilia.
    replace (_ <=? remainingBytes q) with false by (symmetry; apply Z.leb_gt; ilia).
    replace (_ <=? len q) with false by (symmetry; apply Z.leb_gt; ilia).
    reflexivity. }
  split; [exact Hg|]. unfold tpipe_write. rewrite Hg. reflexivity.
Qed.

Lemma oversize_rejected_witness :
  wf LE (fresh64 LE) /\ len (fresh64 LE) < 57 + 8 /\ 57 <= Int32.max_signed - 8
  /\ tpipe_getWriteBuffer LE (fresh64 LE) 57 = Ok (fresh64 LE, None)
  /\ tpipe_write LE (fresh64 LE) (payload 57 x01) 57 = Ok (fresh64 LE, 0).
Proof.
  assert (H1 : len (fresh64 LE) < 57 + 8) by (vm_compute; reflexivity).
  assert (H2 : 57 <= Int32.max_signed - 8) by (vm_compute; discriminate).
  split; [exact wf_fresh64|]. split; [exact H1|]. split; [exact H2|].
  exact (oversize_rejected LE (fresh64 LE) (payload 57 x01) 57 wf_fresh64 H1 H2).
Defined.
